(** * ssmenv: replacing environment values by SSM parameter values

    A shallow embedding of [ssmenv.go] (package [ssmenv]) and the
    properties of [ReplacedEnv] proved on it.

    - Go strings are byte strings: [string] (a list of [ascii]).
    - [map[string]string] is [gmap string string].  The order in which a Go
      [range] loop visits a map is unspecified, so the second loop of
      [ReplacedEnv] takes its visiting order from a [MapRange]: any
      enumeration of the entries of the map.
    - The remote client is an interface with one method; the calls made to
      it and the log line are recorded in a trace of [event]s, and errors
      short-circuit, in the monad [M]. *)

From Stdlib Require Import Ascii List.
From stdpp Require Import gmap strings list fin_maps.

Open Scope string_scope.
Open Scope list_scope.

(** ** The [strings] functions the package calls *)

Module strings.

(** [strings.HasPrefix(s, prefix)] *)
Fixpoint HasPrefix (s prefix : string) {struct prefix} : bool :=
  match prefix, s with
  | EmptyString, _ => true
  | String _ _, EmptyString => false
  | String p prefix', String c s' =>
      if Ascii.eqb c p then HasPrefix s' prefix' else false
  end.

(** [s[n:]] for [n <= len(s)] *)
Fixpoint drop_bytes (n : nat) (s : string) : string :=
  match n, s with
  | O, _ => s
  | S _, EmptyString => EmptyString
  | S n', String _ s' => drop_bytes n' s'
  end.

(** [strings.TrimPrefix(s, prefix)]: [s] without the leading [prefix],
    [s] itself when it does not start with [prefix]. *)
Definition TrimPrefix (s prefix : string) : string :=
  if HasPrefix s prefix then drop_bytes (String.length prefix) s else s.

(** The text before and after the first instance of [sep] in [s]
    ([strings.Index] followed by the two slices, as [genSplit] does);
    [None] when [sep] does not occur. *)
Fixpoint cut (s sep : string) : option (string * string) :=
  if HasPrefix s sep then Some (EmptyString, drop_bytes (String.length sep) s)
  else
    match s with
    | EmptyString => None
    | String c s' =>
        match cut s' sep with
        | Some (before, after) => Some (String c before, after)
        | None => None
        end
    end.

(** [strings.SplitN(s, sep, n)] for a non-empty [sep] and [n >= 0]: at
    most [n] substrings, the last one being the unsplit remainder. *)
Fixpoint SplitN (s sep : string) (n : nat) : list string :=
  match n with
  | O => []
  | S O => [s]
  | S n' =>
      match cut s sep with
      | None => [s]
      | Some (before, after) => before :: SplitN after sep n'
      end
  end.

(** [strings.Join(elems, sep)] *)
Fixpoint Join (elems : list string) (sep : string) : string :=
  match elems with
  | [] => EmptyString
  | [e] => e
  | e :: rest => e +:+ sep +:+ Join rest sep
  end.

End strings.

(** ** Errors of the package *)

Section Ssmenv.

(** The type of the errors the AWS SDK returns. *)
Context {Cause : Type}.

Inductive error : Type :=
| InvalidEnvVarFormatError (OriginalEnvVar : string)
| ParameterNotFoundError (Key : string)
| GetParametersError (cause : Cause)
| InvalidParametersError (InvalidParameters : list string)
| NullParameterError.

(** A Go result pair [(v, err)]: either [err == nil] and a value, or an
    error. *)
Inductive result (E A : Type) : Type :=
| Ok (a : A)
| Err (e : E).
Global Arguments Ok {E A} a.
Global Arguments Err {E A} e.

(** ** The part of the SSM API the package uses *)

(** [ssm.GetParametersInput] *)
Record GetParametersInput : Type := {
  Names : list string;
  WithDecryption : option bool
}.

(** [types.Parameter] (a keyword of Rocq, hence the prefix): [Name] and
    [Value] are pointers and may be nil. *)
Record SsmParameter : Type := {
  Name : option string;
  Value : option string
}.

(** [ssm.GetParametersOutput] *)
Record GetParametersOutput : Type := {
  Parameters : list SsmParameter;
  InvalidParameters : list string
}.

(** [type ssmClient interface] *)
Class ssmClient : Type := {
  GetParameters : GetParametersInput -> result Cause GetParametersOutput
}.

(** ** Effects: the calls to the client and the log line *)

Inductive event : Type :=
| LogInfo (msg : string) (keys : string)
| CallGetParameters (input : GetParametersInput).

Definition M (A : Type) : Type := (list event * result error A)%type.

Definition ret {A} (a : A) : M A := ([], Ok a).
Definition fail {A} (e : error) : M A := ([], Err e).
Definition emit (ev : event) : M unit := ([ev], Ok tt).
Definition lift {A} (r : result error A) : M A := ([], r).
Definition bind {A B} (m : M A) (f : A -> M B) : M B :=
  match m with
  | (t, Ok a) => let '(t', r) := f a in (t ++ t', r)
  | (t, Err e) => (t, Err e)
  end.

(** The calls to [GetParameters] recorded in a trace. *)
Definition fetch_calls (t : list event) : list GetParametersInput :=
  omap (fun ev => match ev with
                  | CallGetParameters input => Some input
                  | LogInfo _ _ => None
                  end) t.

End Ssmenv.

Global Arguments error : clear implicits.
Global Arguments ssmClient : clear implicits.
Global Arguments M : clear implicits.

Declare Scope ssm_scope.
Delimit Scope ssm_scope with ssm.
Notation "x <- m ;; f" := (bind m (fun x => f))
  (at level 100, m at next level, right associativity) : ssm_scope.
Notation "m ;;; f" := (bind m (fun _ => f))
  (at level 100, right associativity) : ssm_scope.

(** ** [ReplacedEnv] and [batchFetch] *)

Definition ssmPrefix : string := "ssm://".

(** The visiting order of [for k, v := range m]: some enumeration of the
    entries of [m]. *)
Record MapRange : Type := {
  range_of :> gmap string string -> list (string * string);
  range_of_perm : forall m, range_of m ≡ₚ map_to_list m
}.

Section Engine.

Context {Cause : Type}.
Local Open Scope ssm_scope.

(** The loop of [batchFetch] over [res.Parameters]. *)
Fixpoint collectParameters (ps : list SsmParameter) (ret : gmap string string)
  : result (error Cause) (gmap string string) :=
  match ps with
  | [] => Ok ret
  | p :: rest =>
      match Name p, Value p with
      | Some name, Some value => collectParameters rest (<[name := value]> ret)
      | _, _ => Err NullParameterError
      end
  end.

Definition batchFetch (cli : ssmClient Cause) (keys : list string)
  : M Cause (gmap string string) :=
  let input := {| Names := keys; WithDecryption := Some true |} in
  emit (CallGetParameters input) ;;;
  match GetParameters input with
  | Err err => fail (GetParametersError err)
  | Ok res =>
      if (0 <? length (InvalidParameters res))%nat
      then fail (InvalidParametersError (InvalidParameters res))
      else lift (collectParameters (Parameters res) ∅)
  end.

(** The first loop of [ReplacedEnv], over [envs]. *)
Fixpoint scanEnvs (envs : list string) (orig : gmap string string)
    (ssmKeys : list string)
  : result (error Cause) (gmap string string * list string) :=
  match envs with
  | [] => Ok (orig, ssmKeys)
  | env :: rest =>
      match strings.SplitN env "=" 2 with
      | [key; value] =>
          let orig := <[key := value]> orig in
          let ssmKeys :=
            if strings.HasPrefix value ssmPrefix
            then ssmKeys ++ [strings.TrimPrefix value ssmPrefix]
            else ssmKeys in
          scanEnvs rest orig ssmKeys
      | _ => Err (InvalidEnvVarFormatError env)
      end
  end.

(** The second loop of [ReplacedEnv], over the entries [kvs] of [orig] in
    the order the [range] visits them. *)
Fixpoint replaceLoop (ps : gmap string string) (kvs : list (string * string))
    (orig : gmap string string)
  : result (error Cause) (gmap string string) :=
  match kvs with
  | [] => Ok orig
  | (k, v) :: rest =>
      if strings.HasPrefix v ssmPrefix then
        let key := strings.TrimPrefix v ssmPrefix in
        match ps !! key with
        | None => Err (ParameterNotFoundError key)
        | Some val => replaceLoop ps rest (<[k := val]> orig)
        end
      else replaceLoop ps rest orig
  end.

Definition ReplacedEnv (rng : MapRange) (cli : ssmClient Cause)
    (envs : list string) : M Cause (gmap string string) :=
  scanned <- lift (scanEnvs envs ∅ []) ;;
  let '(orig, ssmKeys) := scanned in
  if (length ssmKeys =? 0)%nat then ret orig
  else
    emit (LogInfo "fetching SSM parameters" (strings.Join ssmKeys ",")) ;;;
    ps <- batchFetch cli ssmKeys ;;
    lift (replaceLoop ps (rng orig) orig).

End Engine.

(** ** Vocabulary of the specification *)

(** The entry [KEY=VALUE]. *)
Definition entry_of (k v : string) : string := k +:+ "=" +:+ v.

(** Whether the byte [c] occurs in [s]. *)
Fixpoint has_byte (c : ascii) (s : string) : bool :=
  match s with
  | EmptyString => false
  | String c' s' => if Ascii.eqb c' c then true else has_byte c s'
  end.

(** Whether an entry contains a [=] separator. *)
Definition has_sep (e : string) : bool := has_byte "=" e.

(** An entry is well formed when it has a separator. *)
Definition well_formed (e : string) : Prop := has_sep e = true.

(** [last_entry envs k v]: [k=v] is the last entry of [envs] whose key is
    [k] (no later entry has the form [k=...]). *)
Definition last_entry (envs : list string) (k v : string) : Prop :=
  has_sep k = false /\
  exists pre post, envs = pre ++ entry_of k v :: post /\
    forall e v', e ∈ post -> e <> entry_of k v'.

(** The entries split at their first [=], in input order; an entry
    without [=] has no split. *)
Definition parse_entries (envs : list string) : list (string * string) :=
  omap (fun e => strings.cut e "=") envs.

(** The input parsed as a mapping: every entry's key mapped to its value,
    a later entry replacing an earlier one with the same key. *)
Definition parsed_mapping (envs : list string) : gmap string string :=
  list_to_map (reverse (parse_entries envs)).

(** The parameter keys of the values that begin with the marker, one per
    such entry, in input order. *)
Definition referenced_keys (envs : list string) : list string :=
  omap (fun kv : string * string =>
          if strings.HasPrefix kv.2 ssmPrefix
          then Some (strings.TrimPrefix kv.2 ssmPrefix) else None)
       (parse_entries envs).

(** What [batchFetch] returns: the fetch result, or the error of the
    fetch. *)
Definition fetch_result {Cause : Type} (cli : ssmClient Cause)
    (keys : list string)
  : result (error Cause) (gmap string string) :=
  (batchFetch cli keys).2.

(** The request [batchFetch] sends for [keys]. *)
Definition request_for (keys : list string) : GetParametersInput :=
  {| Names := keys; WithDecryption := Some true |}.

(** The trace of a call that reaches the fetch. *)
Definition fetch_trace (keys : list string) : list event :=
  [LogInfo "fetching SSM parameters" (strings.Join keys ",");
   CallGetParameters (request_for keys)].

(** The resolved mapping re-serialized as [KEY=VALUE] entries. *)
Definition serialize (kvs : list (string * string)) : list string :=
  map (fun kv => entry_of kv.1 kv.2) kvs.

(** A stand-in client: answers every request with the parameters [ps] and
    the invalid names [inv]. *)
Definition stubClient (ps : list (string * string)) (inv : list string)
  : ssmClient unit :=
  {| GetParameters := fun _ =>
       Ok {| Parameters :=
               map (fun kv => {| Name := Some kv.1; Value := Some kv.2 |}) ps;
             InvalidParameters := inv |} |}.

(** The order [map_to_list] enumerates a map in, and its reverse. *)
Definition listOrder : MapRange :=
  {| range_of := map_to_list; range_of_perm := fun m => reflexivity _ |}.

Definition reverseOrder : MapRange :=
  {| range_of := fun m => reverse (map_to_list m);
     range_of_perm := fun m => reverse_Permutation (map_to_list m) |}.

(** ** The error interface *)

(** [fmt]'s [%v] of a [[]string]: the elements between brackets, separated
    by spaces. *)
Definition fmt_strings (l : list string) : string :=
  "[" +:+ strings.Join l " " +:+ "]".

(** The [Error] methods of the five error types; [cause_msg] is the
    [Error] method of the (non-nil) error the SDK returned. *)
Definition Error {Cause : Type} (cause_msg : Cause -> string)
    (e : error Cause) : string :=
  match e with
  | InvalidEnvVarFormatError OriginalEnvVar =>
      "invalid environment variable format: " +:+ OriginalEnvVar
  | ParameterNotFoundError Key => "parameter not found: " +:+ Key
  | GetParametersError cause =>
      "failed to get SSM parameters: " +:+ cause_msg cause
  | InvalidParametersError InvalidParameters =>
      "invalid SSM parameters respond: " +:+ fmt_strings InvalidParameters
  | NullParameterError => "null parameter parameter response"
  end.

(** [errors.Unwrap] on the errors of the package: only
    [GetParametersError] has an [Unwrap] method. *)
Definition Unwrap {Cause : Type} (e : error Cause) : option Cause :=
  match e with
  | GetParametersError cause => Some cause
  | _ => None
  end.

(** A stand-in client that answers every request with [r]. *)
Definition constClient {Cause : Type}
    (r : result Cause GetParametersOutput) : ssmClient Cause :=
  {| GetParameters := fun _ => r |}.

(** [last_parameter params name value]: the last parameter of [params]
    named [name] has the value [value]. *)
Definition last_parameter (params : list SsmParameter) (name value : string)
  : Prop :=
  exists pre post,
    params = pre ++ {| Name := Some name; Value := Some value |} :: post /\
    forall p, p ∈ post -> Name p <> Some name.

(** A returned parameter with both its name and its value. *)
Definition complete (p : SsmParameter) : Prop :=
  is_Some (Name p) /\ is_Some (Value p).

(** Enumerates the entries of a closed mapping in a lookup hypothesis. *)
Ltac enumerate_lookup H :=
  apply elem_of_map_to_list in H;
  match type of H with
  | _ ∈ map_to_list ?m =>
      let l := eval vm_compute in (map_to_list m) in
      replace (map_to_list m) with l in H by (vm_compute; reflexivity)
  end;
  rewrite ?elem_of_cons in H.

(** ** The [strings] functions *)

Section StringFacts.

Lemma HasPrefix_app (p r : string) : strings.HasPrefix (p +:+ r) p = true.
Proof.
  induction p as [|c p IH]; simpl; [done|].
  by rewrite Ascii.eqb_refl.
Qed.

Lemma HasPrefix_inv (s p : string) :
  strings.HasPrefix s p = true -> exists r, s = p +:+ r.
Proof.
  revert s; induction p as [|c p IH]; intros s H; simpl in *.
  - by exists s.
  - destruct s as [|c' s]; [done|].
    destruct (Ascii.eqb_spec c' c) as [->|]; [|done].
    destruct (IH _ H) as [r ->]. by exists r.
Qed.

Lemma drop_bytes_app (p r : string) :
  strings.drop_bytes (String.length p) (p +:+ r) = r.
Proof. induction p as [|c p IH]; simpl; [by destruct r|done]. Qed.

Lemma TrimPrefix_app (p r : string) : strings.TrimPrefix (p +:+ r) p = r.
Proof.
  unfold strings.TrimPrefix. by rewrite HasPrefix_app, drop_bytes_app.
Qed.

(** A value begins with the marker exactly when [HasPrefix] says so, and
    [TrimPrefix] then returns what follows the marker. *)
Lemma marker_spec (v : string) :
  strings.HasPrefix v ssmPrefix = true <->
  exists key, v = ssmPrefix +:+ key.
Proof.
  split; [apply HasPrefix_inv|]. intros [key ->]. apply HasPrefix_app.
Qed.

Lemma not_marker_spec (v : string) :
  strings.HasPrefix v ssmPrefix = false <->
  forall key, v <> ssmPrefix +:+ key.
Proof.
  split.
  - intros H key ->. by rewrite HasPrefix_app in H.
  - intros H. destruct (strings.HasPrefix v ssmPrefix) eqn:E; [|done].
    apply HasPrefix_inv in E as [key ->]. by destruct (H key).
Qed.

Lemma cut_sep_nil : strings.cut "" "=" = None.
Proof. done. Qed.

Lemma cut_sep_cons (c : ascii) (s : string) :
  strings.cut (String c s) "=" =
    if Ascii.eqb c "=" then Some ("", s)
    else match strings.cut s "=" with
         | Some (before, after) => Some (String c before, after)
         | None => None
         end.
Proof. simpl. by destruct (Ascii.eqb c "="). Qed.

Lemma has_byte_app (c : ascii) (a b : string) :
  has_byte c (a +:+ b) = has_byte c a || has_byte c b.
Proof.
  induction a as [|c' a IH]; simpl; [done|].
  by destruct (Ascii.eqb c' c).
Qed.

Lemma has_sep_entry_of (k v : string) : has_sep (entry_of k v) = true.
Proof.
  unfold has_sep, entry_of. rewrite has_byte_app. simpl.
  by rewrite orb_true_r.
Qed.

(** Splitting [k=v] gives back [k] and [v] when [k] has no [=]. *)
Lemma cut_entry_of (k v : string) :
  has_sep k = false -> strings.cut (entry_of k v) "=" = Some (k, v).
Proof.
  unfold has_sep, entry_of. induction k as [|c k IH]; intros Hk.
  - done.
  - change (String c k +:+ "=" +:+ v) with (String c (k +:+ "=" +:+ v)).
    rewrite cut_sep_cons. simpl in Hk.
    destruct (Ascii.eqb c "="); [done|]. by rewrite (IH Hk).
Qed.

Lemma cut_Some (e k v : string) :
  strings.cut e "=" = Some (k, v) -> e = entry_of k v /\ has_sep k = false.
Proof.
  revert k. induction e as [|c e IH]; intros k H; [done|].
  rewrite cut_sep_cons in H.
  destruct (Ascii.eqb_spec c "=") as [->|Hc].
  - by injection H as <- <-.
  - destruct (strings.cut e "=") as [[before after]|] eqn:E; [|done].
    injection H as <- <-. destruct (IH _ eq_refl) as [-> Hb].
    split; [done|]. unfold has_sep in *. simpl.
    by destruct (Ascii.eqb_spec c "=").
Qed.

Lemma cut_None (e : string) :
  strings.cut e "=" = None <-> has_sep e = false.
Proof.
  unfold has_sep. induction e as [|c e IH]; [done|].
  rewrite cut_sep_cons. simpl.
  destruct (Ascii.eqb c "="); [done|].
  destruct (strings.cut e "=") as [[before after]|]; [|tauto].
  split; [done|]. intros H. by apply IH in H.
Qed.

Lemma cut_is_Some (e : string) :
  has_sep e = true -> exists k v, strings.cut e "=" = Some (k, v).
Proof.
  intros H. destruct (strings.cut e "=") as [[k v]|] eqn:E; [eauto|].
  apply cut_None in E. congruence.
Qed.

Lemma SplitN_sep (e : string) :
  strings.SplitN e "=" 2 =
    match strings.cut e "=" with
    | Some (k, v) => [k; v]
    | None => [e]
    end.
Proof. cbn [strings.SplitN]. by destruct (strings.cut e "=") as [[k v]|]. Qed.

Lemma entry_of_inj (k k' v v' : string) :
  has_sep k = false -> has_sep k' = false ->
  entry_of k v = entry_of k' v' -> k = k' /\ v = v'.
Proof.
  intros Hk Hk' E. apply (cut_entry_of k v) in Hk.
  apply (cut_entry_of k' v') in Hk'. rewrite E in Hk.
  rewrite Hk in Hk'. by injection Hk'.
Qed.

End StringFacts.

Global Arguments strings.HasPrefix : simpl never.
Global Arguments strings.TrimPrefix : simpl never.
Global Arguments strings.cut : simpl never.
Global Arguments strings.SplitN : simpl never.

(** ** The first loop: parsing the entries *)

Section Scan.

Context {Cause : Type}.

Lemma parse_entries_cons (e : string) (rest : list string) :
  parse_entries (e :: rest) =
    match strings.cut e "=" with
    | Some kv => kv :: parse_entries rest
    | None => parse_entries rest
    end.
Proof. done. Qed.

Lemma parsed_mapping_cons (e : string) (rest : list string) :
  parsed_mapping (e :: rest) =
    match strings.cut e "=" with
    | Some (k, v) => parsed_mapping rest ∪ {[k := v]}
    | None => parsed_mapping rest
    end.
Proof.
  unfold parsed_mapping. rewrite parse_entries_cons.
  destruct (strings.cut e "=") as [[k v]|]; [|done].
  rewrite reverse_cons, list_to_map_app. simpl.
  by rewrite insert_empty.
Qed.

Lemma referenced_keys_cons (e : string) (rest : list string) :
  referenced_keys (e :: rest) =
    match strings.cut e "=" with
    | Some (k, v) =>
        (if strings.HasPrefix v ssmPrefix
         then [strings.TrimPrefix v ssmPrefix] else [])
        ++ referenced_keys rest
    | None => referenced_keys rest
    end.
Proof.
  unfold referenced_keys. rewrite parse_entries_cons.
  destruct (strings.cut e "=") as [[k v]|]; [|done]. simpl.
  by destruct (strings.HasPrefix v ssmPrefix).
Qed.

Lemma scanEnvs_cons_split (e k v : string) rest orig keys :
  strings.cut e "=" = Some (k, v) ->
  scanEnvs (Cause:=Cause) (e :: rest) orig keys =
    scanEnvs rest (<[k := v]> orig)
      (if strings.HasPrefix v ssmPrefix
       then keys ++ [strings.TrimPrefix v ssmPrefix] else keys).
Proof. intros H. cbn [scanEnvs]. by rewrite SplitN_sep, H. Qed.

Lemma scanEnvs_cons_nosep (e : string) rest orig keys :
  has_sep e = false ->
  scanEnvs (Cause:=Cause) (e :: rest) orig keys =
    Err (InvalidEnvVarFormatError e).
Proof.
  intros H. apply cut_None in H. cbn [scanEnvs]. by rewrite SplitN_sep, H.
Qed.

(** On well-formed entries the loop ends with the parsed mapping and the
    referenced keys. *)
Lemma scanEnvs_well_formed envs orig keys :
  Forall well_formed envs ->
  scanEnvs (Cause:=Cause) envs orig keys =
    Ok (parsed_mapping envs ∪ orig, keys ++ referenced_keys envs).
Proof.
  intros Hwf. revert orig keys.
  induction Hwf as [|e rest He _ IH]; intros orig keys.
  - simpl. unfold parsed_mapping, referenced_keys. simpl.
    by rewrite (left_id_L ∅ (∪)), app_nil_r.
  - destruct (cut_is_Some e He) as (k & v & Hcut).
    rewrite (scanEnvs_cons_split _ _ _ _ _ _ Hcut), IH.
    rewrite parsed_mapping_cons, referenced_keys_cons, Hcut.
    rewrite <- (assoc_L (∪)), <- insert_union_singleton_l.
    by destruct (strings.HasPrefix v ssmPrefix); rewrite <- ?app_assoc.
Qed.

(** The loop stops at the first entry without a separator. *)
Lemma scanEnvs_first_nosep pre e post orig keys :
  Forall well_formed pre -> has_sep e = false ->
  scanEnvs (Cause:=Cause) (pre ++ e :: post) orig keys =
    Err (InvalidEnvVarFormatError e).
Proof.
  intros Hwf He. revert orig keys.
  induction Hwf as [|e' rest He' _ IH]; intros orig keys.
  - by apply scanEnvs_cons_nosep.
  - destruct (cut_is_Some e' He') as (k & v & Hcut).
    simpl app. by rewrite (scanEnvs_cons_split _ _ _ _ _ _ Hcut), IH.
Qed.

Lemma first_nosep envs :
  ¬ Forall well_formed envs ->
  exists pre e post, envs = pre ++ e :: post /\
    Forall well_formed pre /\ has_sep e = false.
Proof.
  induction envs as [|e rest IH]; intros H.
  - by destruct H.
  - destruct (has_sep e) eqn:He.
    + destruct IH as (pre & e' & post & -> & Hpre & He').
      { intros Hrest. apply H. by constructor. }
      exists (e :: pre), e', post. repeat split; [|done].
      by constructor.
    + by exists [], e, rest.
Qed.

Lemma scanEnvs_Ok_well_formed envs orig keys r :
  scanEnvs (Cause:=Cause) envs orig keys = Ok r -> Forall well_formed envs.
Proof.
  intros H. destruct (decide (Forall well_formed envs)) as [|Hn]; [done|].
  destruct (first_nosep envs Hn) as (pre & e & post & -> & Hpre & He).
  by rewrite scanEnvs_first_nosep in H.
Qed.

(** No entry of [envs] has key [k]. *)
Lemma parsed_mapping_None envs k :
  has_sep k = false ->
  parsed_mapping envs !! k = None <->
  forall e v', e ∈ envs -> e <> entry_of k v'.
Proof.
  intros Hk. induction envs as [|e rest IH].
  - split; [|done]. intros _ e v' He. by apply elem_of_nil in He.
  - rewrite parsed_mapping_cons.
    destruct (strings.cut e "=") as [[k0 v0]|] eqn:Hcut.
    + apply cut_Some in Hcut as [-> Hk0].
      rewrite lookup_union_None, lookup_singleton_None, IH. split.
      * intros [Hrest Hne] e v' [->|He]%elem_of_cons; [|by eapply Hrest].
        intros [? _]%entry_of_inj; done.
      * intros H. split.
        -- intros e v' He. apply H. by right.
        -- intros ->. eapply (H _ v0); [by left|done].
    + apply cut_None in Hcut. rewrite IH. split.
      * intros Hrest e' v' [->|He]%elem_of_cons; [|by eapply Hrest].
        intros ->. by rewrite has_sep_entry_of in Hcut.
      * intros H e' v' He. apply H. by right.
Qed.

(** The parsed mapping holds, for each key, its last entry. *)
Lemma parsed_mapping_lookup envs k v :
  parsed_mapping envs !! k = Some v <-> last_entry envs k v.
Proof.
  induction envs as [|e rest IH].
  - split; [done|]. intros (_ & pre & post & H & _). by destruct pre.
  - rewrite parsed_mapping_cons. split.
    + intros H.
      assert (parsed_mapping rest !! k = Some v \/
              parsed_mapping rest !! k = None /\
              strings.cut e "=" = Some (k, v)) as [Hr|[Hr Hcut]].
      { destruct (strings.cut e "=") as [[k0 v0]|]; [|by left].
        apply lookup_union_Some_raw in H as [?|[? H]]; [by left|right].
        apply lookup_singleton_Some in H as [-> ->]. done. }
      * apply IH in Hr as (Hk & pre & post & -> & Hpost).
        split; [done|]. by exists (e :: pre), post.
      * apply cut_Some in Hcut as [-> Hk]. split; [done|].
        exists [], rest. split; [done|]. by apply parsed_mapping_None.
    + intros (Hk & pre & post & Henvs & Hpost).
      destruct pre as [|e' pre]; simplify_eq/=.
      * rewrite (cut_entry_of _ _ Hk).
        apply lookup_union_Some_raw. right.
        split; [by apply parsed_mapping_None|]. apply lookup_singleton_eq.
      * assert (parsed_mapping (pre ++ entry_of k v :: post) !! k = Some v)
          as Hr by (apply IH; split; [done|]; by exists pre, post).
        destruct (strings.cut e' "=") as [[k0 v0]|]; [|done].
        apply lookup_union_Some_raw. by left.
Qed.

(** A key referenced by some value that begins with the marker. *)
Lemma elem_of_referenced_keys envs key :
  key ∈ referenced_keys envs <->
  exists k, has_sep k = false /\ entry_of k (ssmPrefix +:+ key) ∈ envs.
Proof.
  unfold referenced_keys, parse_entries. rewrite list_elem_of_omap. split.
  - intros ([k v] & [e [He Hcut]]%list_elem_of_omap & H). simpl in H.
    apply cut_Some in Hcut as [-> Hk].
    destruct (strings.HasPrefix v ssmPrefix) eqn:Hv; [|done].
    apply HasPrefix_inv in Hv as [r ->]. rewrite TrimPrefix_app in H.
    injection H as ->. by exists k.
  - intros (k & Hk & He). exists (k, ssmPrefix +:+ key). split.
    + apply list_elem_of_omap. eexists. split; [done|].
      by apply cut_entry_of.
    + cbn [snd]. by rewrite HasPrefix_app, TrimPrefix_app.
Qed.

End Scan.

(** ** The second loop: splicing the fetched values *)

Section Replace.

Context {Cause : Type}.
Implicit Types (ps orig m : gmap string string).
Implicit Types (kvs : list (string * string)).

Lemma replaceLoop_notin ps kvs orig m k :
  replaceLoop (Cause:=Cause) ps kvs orig = Ok m ->
  k ∉ kvs.*1 -> m !! k = orig !! k.
Proof.
  revert orig. induction kvs as [|[k0 v0] kvs IH]; intros orig H Hk.
  - by injection H as ->.
  - apply not_elem_of_cons in Hk as [Hne Hk]. cbn [replaceLoop] in H.
    destruct (strings.HasPrefix v0 ssmPrefix).
    + destruct (ps !! strings.TrimPrefix v0 ssmPrefix); [|done].
      rewrite (IH _ H Hk). by apply lookup_insert_ne.
    + by apply IH.
Qed.

(** An entry the loop visits is left alone when its value has no marker,
    and otherwise replaced by the fetched value, which exists. *)
Lemma replaceLoop_in ps kvs orig m k v :
  replaceLoop (Cause:=Cause) ps kvs orig = Ok m ->
  NoDup kvs.*1 -> (k, v) ∈ kvs ->
  if strings.HasPrefix v ssmPrefix
  then m !! k = ps !! strings.TrimPrefix v ssmPrefix /\ is_Some (m !! k)
  else m !! k = orig !! k.
Proof.
  revert orig. induction kvs as [|[k0 v0] kvs IH]; intros orig H Hnd Hin.
  - by apply elem_of_nil in Hin.
  - cbn [fmap list_fmap fst] in Hnd. apply NoDup_cons in Hnd as [Hk0 Hnd].
    cbn [replaceLoop] in H. apply elem_of_cons in Hin as [[= -> ->]|Hin].
    + destruct (strings.HasPrefix v0 ssmPrefix).
      * destruct (ps !! strings.TrimPrefix v0 ssmPrefix) as [val|]; [|done].
        rewrite (replaceLoop_notin _ _ _ _ _ H Hk0), lookup_insert_eq.
        by split.
      * by apply (replaceLoop_notin _ _ _ _ _ H).
    + assert (k <> k0) as Hne.
      { intros ->. apply Hk0. apply list_elem_of_fmap. by exists (k0, v). }
      destruct (strings.HasPrefix v0 ssmPrefix).
      * destruct (ps !! strings.TrimPrefix v0 ssmPrefix) as [val|]; [|done].
        specialize (IH _ H Hnd Hin).
        destruct (strings.HasPrefix v ssmPrefix); [done|].
        by rewrite IH, lookup_insert_ne.
      * by apply IH.
Qed.

(** The loop only fails on a visited entry whose parameter key the fetch
    result lacks, and names that key. *)
Lemma replaceLoop_Err ps kvs orig e :
  replaceLoop (Cause:=Cause) ps kvs orig = Err e ->
  exists k key, (k, ssmPrefix +:+ key) ∈ kvs /\ ps !! key = None /\
    e = ParameterNotFoundError key.
Proof.
  revert orig. induction kvs as [|[k0 v0] kvs IH]; intros orig H; [done|].
  cbn [replaceLoop] in H.
  assert (forall orig', replaceLoop ps kvs orig' = Err e ->
    exists k key, (k, ssmPrefix +:+ key) ∈ (k0, v0) :: kvs /\
      ps !! key = None /\ e = ParameterNotFoundError key) as Hrest.
  { intros orig' (k & key & Hin & ?)%IH. exists k, key.
    split; [by right|done]. }
  destruct (strings.HasPrefix v0 ssmPrefix) eqn:Hv0; [|by eapply Hrest].
  apply HasPrefix_inv in Hv0 as [key ->]. rewrite TrimPrefix_app in H.
  destruct (ps !! key) eqn:Hps; [by eapply Hrest|].
  injection H as <-. exists k0, key. split; [by left|done].
Qed.

Lemma replaceLoop_Ok_present ps kvs orig m k key :
  replaceLoop (Cause:=Cause) ps kvs orig = Ok m ->
  (k, ssmPrefix +:+ key) ∈ kvs -> is_Some (ps !! key).
Proof.
  revert orig. induction kvs as [|[k0 v0] kvs IH]; intros orig H Hin.
  - by apply elem_of_nil in Hin.
  - cbn [replaceLoop] in H. apply elem_of_cons in Hin as [[= <- <-]|Hin].
    + rewrite HasPrefix_app, TrimPrefix_app in H.
      by destruct (ps !! key).
    + destruct (strings.HasPrefix v0 ssmPrefix); [|by eapply IH].
      destruct (ps !! strings.TrimPrefix v0 ssmPrefix); [by eapply IH|done].
Qed.

Lemma elem_of_range (rng : MapRange) orig k v :
  (k, v) ∈ rng orig <-> orig !! k = Some v.
Proof. by rewrite (range_of_perm rng orig), elem_of_map_to_list. Qed.

Lemma NoDup_range (rng : MapRange) orig : NoDup (rng orig).*1.
Proof. rewrite (range_of_perm rng orig). apply NoDup_fst_map_to_list. Qed.

(** What the second loop returns on the entries of [orig] itself. *)
Lemma replaceLoop_range_lookup (rng : MapRange) ps orig m k :
  replaceLoop (Cause:=Cause) ps (rng orig) orig = Ok m ->
  m !! k =
    match orig !! k with
    | Some v => if strings.HasPrefix v ssmPrefix
                then ps !! strings.TrimPrefix v ssmPrefix else Some v
    | None => None
    end.
Proof.
  intros H. destruct (orig !! k) as [v|] eqn:Hk.
  - pose proof (replaceLoop_in _ _ _ _ k v H (NoDup_range _ _)) as Hin.
    rewrite elem_of_range in Hin. specialize (Hin Hk).
    destruct (strings.HasPrefix v ssmPrefix); [by destruct Hin|].
    by rewrite Hin.
  - rewrite (replaceLoop_notin _ _ _ _ k H); [done|].
    intros ([k' v] & -> & Hin%elem_of_range)%list_elem_of_fmap.
    simpl in Hk. congruence.
Qed.

Lemma replaceLoop_range_is_Some (rng : MapRange) ps orig m k :
  replaceLoop (Cause:=Cause) ps (rng orig) orig = Ok m ->
  is_Some (m !! k) <-> is_Some (orig !! k).
Proof.
  intros H. destruct (orig !! k) as [v|] eqn:Hk.
  - pose proof (replaceLoop_in _ _ _ _ k v H (NoDup_range _ _)) as Hin.
    rewrite elem_of_range in Hin. specialize (Hin Hk).
    destruct (strings.HasPrefix v ssmPrefix).
    + destruct Hin as [_ Hin]. by split.
    + rewrite Hin, Hk. by split.
  - rewrite (replaceLoop_range_lookup _ _ _ _ k H), Hk. done.
Qed.

End Replace.

(** ** [ReplacedEnv] as a whole *)

Section ReplacedEnvFacts.

Context {Cause : Type}.
Implicit Types (rng : MapRange) (cli : ssmClient Cause).

Lemma batchFetch_eq cli keys :
  batchFetch cli keys =
    ([CallGetParameters (request_for keys)], fetch_result cli keys).
Proof.
  unfold fetch_result, batchFetch, bind, emit, fail, lift.
  fold (request_for keys).
  destruct (GetParameters (request_for keys)) as [res|err]; [|done].
  by destruct (0 <? length (InvalidParameters res))%nat.
Qed.

Lemma ReplacedEnv_well_formed rng cli envs :
  Forall well_formed envs ->
  ReplacedEnv rng cli envs =
    match referenced_keys envs with
    | [] => ([], Ok (parsed_mapping envs))
    | _ :: _ =>
        (fetch_trace (referenced_keys envs),
         match fetch_result cli (referenced_keys envs) with
         | Ok ps =>
             replaceLoop ps (rng (parsed_mapping envs)) (parsed_mapping envs)
         | Err e => Err e
         end)
    end.
Proof.
  intros Hwf. unfold ReplacedEnv.
  rewrite (scanEnvs_well_formed _ _ _ Hwf), (right_id_L ∅ (∪)), app_nil_l.
  unfold bind at 1. unfold lift at 1.
  destruct (referenced_keys envs) as [|key keys] eqn:Hkeys; [done|].
  cbn [length Nat.eqb]. rewrite batchFetch_eq.
  unfold bind, emit, lift, fetch_trace. cbn [app].
  by destruct (fetch_result cli (key :: keys)).
Qed.

Lemma ReplacedEnv_nosep rng cli pre e post :
  Forall well_formed pre -> has_sep e = false ->
  ReplacedEnv rng cli (pre ++ e :: post) =
    ([], Err (InvalidEnvVarFormatError e)).
Proof.
  intros Hpre He. unfold ReplacedEnv.
  by rewrite (scanEnvs_first_nosep _ _ _ _ _ Hpre He).
Qed.

(** A call that returns a mapping had only well-formed entries. *)
Lemma ReplacedEnv_Ok_well_formed rng cli envs t m :
  ReplacedEnv rng cli envs = (t, Ok m) -> Forall well_formed envs.
Proof.
  intros H. destruct (decide (Forall well_formed envs)) as [|Hn]; [done|].
  destruct (first_nosep envs Hn) as (pre & e & post & -> & Hpre & He).
  by rewrite ReplacedEnv_nosep in H.
Qed.

(** The mapping a successful call returns, key by key. *)
Lemma ReplacedEnv_Ok_lookup rng cli envs t m k :
  ReplacedEnv rng cli envs = (t, Ok m) ->
  m !! k =
    match parsed_mapping envs !! k with
    | Some v =>
        if strings.HasPrefix v ssmPrefix
        then match fetch_result cli (referenced_keys envs) with
             | Ok ps => ps !! strings.TrimPrefix v ssmPrefix
             | Err _ => None
             end
        else Some v
    | None => None
    end.
Proof.
  intros H. pose proof (ReplacedEnv_Ok_well_formed _ _ _ _ _ H) as Hwf.
  rewrite (ReplacedEnv_well_formed _ _ _ Hwf) in H.
  destruct (referenced_keys envs) as [|key keys] eqn:Hkeys.
  - injection H as _ <-.
    destruct (parsed_mapping envs !! k) as [v|] eqn:Hk; [|done].
    destruct (strings.HasPrefix v ssmPrefix) eqn:Hv; [|done].
    apply HasPrefix_inv in Hv as [key ->].
    apply parsed_mapping_lookup in Hk as (Hk & pre & post & -> & _).
    assert (key ∈ referenced_keys (pre ++ entry_of k (ssmPrefix +:+ key) :: post))
      as Hin.
    { apply elem_of_referenced_keys. exists k. split; [done|].
      apply elem_of_app. right. by left. }
    rewrite Hkeys in Hin. by apply elem_of_nil in Hin.
  - destruct (fetch_result cli (key :: keys)) as [ps|]; [|by injection H].
    injection H as _ H. exact (replaceLoop_range_lookup rng _ _ _ _ H).
Qed.

End ReplacedEnvFacts.

Section ReplacedEnvCases.

Context {Cause : Type}.
Implicit Types (rng : MapRange) (cli : ssmClient Cause).

Lemma referenced_keys_nil envs :
  referenced_keys envs = [] <->
  forall k key, has_sep k = false -> entry_of k (ssmPrefix +:+ key) ∉ envs.
Proof.
  split.
  - intros Hnil k key Hk Hin.
    assert (key ∈ referenced_keys envs) as H
      by (apply elem_of_referenced_keys; eauto).
    rewrite Hnil in H. by apply elem_of_nil in H.
  - intros H. destruct (referenced_keys envs) as [|key keys] eqn:E; [done|].
    assert (key ∈ referenced_keys envs) as Hin by (rewrite E; by left).
    apply elem_of_referenced_keys in Hin as (k & Hk & Hin).
    by destruct (H k key Hk).
Qed.

(** Without a reference nothing is fetched or logged. *)
Lemma ReplacedEnv_no_reference rng cli envs :
  Forall well_formed envs -> referenced_keys envs = [] ->
  ReplacedEnv rng cli envs = ([], Ok (parsed_mapping envs)).
Proof.
  intros Hwf Hnil. by rewrite (ReplacedEnv_well_formed _ _ _ Hwf), Hnil.
Qed.

(** With a reference the trace is the log line and one request. *)
Lemma ReplacedEnv_reference_trace rng cli envs :
  Forall well_formed envs -> referenced_keys envs <> [] ->
  (ReplacedEnv rng cli envs).1 = fetch_trace (referenced_keys envs).
Proof.
  intros Hwf Hne. rewrite (ReplacedEnv_well_formed _ _ _ Hwf).
  by destruct (referenced_keys envs).
Qed.

Lemma ReplacedEnv_reference_result rng cli envs ps :
  Forall well_formed envs -> referenced_keys envs <> [] ->
  fetch_result cli (referenced_keys envs) = Ok ps ->
  (ReplacedEnv rng cli envs).2 =
    replaceLoop ps (rng (parsed_mapping envs)) (parsed_mapping envs).
Proof.
  intros Hwf Hne Hps. rewrite (ReplacedEnv_well_formed _ _ _ Hwf).
  destruct (referenced_keys envs); [done|]. simpl. by rewrite Hps.
Qed.

Lemma last_entry_referenced envs k key :
  last_entry envs k (ssmPrefix +:+ key) -> key ∈ referenced_keys envs.
Proof.
  intros (Hk & pre & post & -> & _). apply elem_of_referenced_keys.
  exists k. split; [done|]. apply elem_of_app. right. by left.
Qed.

(** A surviving reference the fetch result lacks makes the call fail,
    naming such a reference. *)
Lemma ReplacedEnv_not_found rng cli envs ps k key :
  Forall well_formed envs ->
  fetch_result cli (referenced_keys envs) = Ok ps ->
  last_entry envs k (ssmPrefix +:+ key) -> ps !! key = None ->
  exists k' key', last_entry envs k' (ssmPrefix +:+ key') /\
    ps !! key' = None /\
    ReplacedEnv rng cli envs =
      (fetch_trace (referenced_keys envs),
       Err (ParameterNotFoundError key')).
Proof.
  intros Hwf Hps Hlast Hnone.
  assert (referenced_keys envs <> []) as Hne.
  { intros E. apply last_entry_referenced in Hlast. rewrite E in Hlast.
    by apply elem_of_nil in Hlast. }
  pose proof (ReplacedEnv_reference_trace rng cli _ Hwf Hne) as Ht.
  pose proof (ReplacedEnv_reference_result rng cli _ _ Hwf Hne Hps) as Hr.
  destruct (ReplacedEnv rng cli envs) as [t r]. simpl in Ht, Hr. subst t.
  destruct r as [m|e].
  - symmetry in Hr.
    apply (replaceLoop_Ok_present _ _ _ _ k key) in Hr.
    + rewrite Hnone in Hr. by destruct Hr.
    + by apply elem_of_range, parsed_mapping_lookup.
  - symmetry in Hr. apply replaceLoop_Err in Hr as (k' & key' & Hin & ? & ->).
    exists k', key'. split; [|done].
    by apply parsed_mapping_lookup, (elem_of_range rng).
Qed.

(** A mapping returned under one visiting order is returned under every
    other. *)
Lemma ReplacedEnv_Ok_any_order rng rng' cli envs t m :
  ReplacedEnv rng cli envs = (t, Ok m) ->
  ReplacedEnv rng' cli envs = (t, Ok m).
Proof.
  intros H. pose proof (ReplacedEnv_Ok_well_formed _ _ _ _ _ H) as Hwf.
  rewrite (ReplacedEnv_well_formed _ _ _ Hwf) in H.
  rewrite (ReplacedEnv_well_formed _ _ _ Hwf).
  destruct (referenced_keys envs) as [|key keys]; [done|].
  destruct (fetch_result cli (key :: keys)) as [ps|]; [|done].
  injection H as <- H. f_equal.
  destruct (replaceLoop ps (rng' _) _) as [m'|e] eqn:H'.
  - f_equal. apply map_eq. intros k.
    by rewrite (replaceLoop_range_lookup _ _ _ _ k H),
               (replaceLoop_range_lookup _ _ _ _ k H').
  - apply replaceLoop_Err in H' as (k & key' & Hin & Hnone & _).
    apply elem_of_range in Hin. apply (elem_of_range rng) in Hin.
    apply (replaceLoop_Ok_present _ _ _ _ _ _ H) in Hin.
    rewrite Hnone in Hin. by destruct Hin.
Qed.

(** The keys of a returned mapping are the keys of the entries. *)
Lemma ReplacedEnv_Ok_keys rng cli envs t m k :
  ReplacedEnv rng cli envs = (t, Ok m) ->
  is_Some (m !! k) <-> exists v, last_entry envs k v.
Proof.
  intros H. pose proof (ReplacedEnv_Ok_well_formed _ _ _ _ _ H) as Hwf.
  rewrite (ReplacedEnv_well_formed _ _ _ Hwf) in H.
  assert (is_Some (m !! k) <-> is_Some (parsed_mapping envs !! k)) as ->.
  { destruct (referenced_keys envs) as [|key keys].
    - by injection H as _ <-.
    - destruct (fetch_result cli (key :: keys)) as [ps|]; [|done].
      injection H as _ H. exact (replaceLoop_range_is_Some rng ps _ _ k H). }
  unfold is_Some. by setoid_rewrite parsed_mapping_lookup.
Qed.

End ReplacedEnvCases.

(** ** The requested names *)

Lemma referenced_keys_app (envs1 envs2 : list string) :
  referenced_keys (envs1 ++ envs2)
    = referenced_keys envs1 ++ referenced_keys envs2.
Proof. unfold referenced_keys, parse_entries. by rewrite !omap_app. Qed.

Lemma referenced_keys_marker (k key : string) :
  has_sep k = false ->
  referenced_keys [entry_of k (ssmPrefix +:+ key)] = [key].
Proof.
  intros Hk. rewrite referenced_keys_cons, (cut_entry_of _ _ Hk).
  by rewrite HasPrefix_app, TrimPrefix_app.
Qed.

Lemma referenced_keys_plain (k v : string) :
  has_sep k = false -> (forall key, v <> ssmPrefix +:+ key) ->
  referenced_keys [entry_of k v] = [].
Proof.
  intros Hk Hv%not_marker_spec.
  by rewrite referenced_keys_cons, (cut_entry_of _ _ Hk), Hv.
Qed.

(** ** Feeding a returned mapping back *)

Lemma serialize_well_formed (kvs : list (string * string)) :
  Forall well_formed (serialize kvs).
Proof.
  apply Forall_forall. intros e ([k v] & -> & _)%list_elem_of_fmap.
  apply has_sep_entry_of.
Qed.

Lemma parse_entries_serialize (kvs : list (string * string)) :
  Forall (fun kv => has_sep kv.1 = false) kvs ->
  parse_entries (serialize kvs) = kvs.
Proof.
  induction 1 as [|[k v] kvs Hk _ IH]; [done|].
  unfold serialize. cbn [map fst snd]. rewrite parse_entries_cons.
  rewrite (cut_entry_of _ _ Hk). f_equal. exact IH.
Qed.

(** The keys of a returned mapping contain no ["="]. *)
Lemma ReplacedEnv_Ok_key_nosep
    {Cause : Type} (rng : MapRange) (cli : ssmClient Cause)
    (envs : list string) (t : list event) (m : gmap string string)
    (k v : string) :
  ReplacedEnv rng cli envs = (t, Ok m) -> m !! k = Some v -> has_sep k = false.
Proof.
  intros H Hk.
  destruct (proj1 (ReplacedEnv_Ok_keys _ _ _ _ _ k H)) as [v' [Hsep _]];
    [by exists v|done].
Qed.

(** * The claims *)

(** C1, as amended: for every list of well-formed entries with at least
    one value beginning with ["ssm://"], [ReplacedEnv] issues exactly one
    fetch call; its name list holds the parameter key of every such entry,
    one name per entry in input order, so a key referenced by several
    entries is repeated; the names are exactly the keys referenced. *)
Theorem C1_one_fetch_with_every_reference
    {Cause : Type} (rng : MapRange) (cli : ssmClient Cause)
    (envs : list string) :
  Forall well_formed envs ->
  (exists k key, has_sep k = false /\
                 entry_of k (ssmPrefix +:+ key) ∈ envs) ->
  fetch_calls (ReplacedEnv rng cli envs).1
    = [request_for (referenced_keys envs)] /\
  (forall key, key ∈ referenced_keys envs <->
     exists k, has_sep k = false /\ entry_of k (ssmPrefix +:+ key) ∈ envs) /\
  (forall pre k key post,
     envs = pre ++ entry_of k (ssmPrefix +:+ key) :: post ->
     has_sep k = false ->
     referenced_keys envs
       = referenced_keys pre ++ key :: referenced_keys post).
Proof.
  intros Hwf (k & key & Hk & Hin).
  assert (referenced_keys envs <> []) as Hne.
  { intros E. eapply referenced_keys_nil in E; [|exact Hk]. by apply E in Hin. }
  split; [|split].
  - by rewrite (ReplacedEnv_reference_trace _ _ _ Hwf Hne).
  - intros key'. apply elem_of_referenced_keys.
  - intros pre k' key' post -> Hk'.
    rewrite referenced_keys_app.
    change (entry_of k' (ssmPrefix +:+ key') :: post)
      with ([entry_of k' (ssmPrefix +:+ key')] ++ post).
    by rewrite referenced_keys_app, referenced_keys_marker.
Qed.

Lemma C1_witness :
  fetch_calls
    (ReplacedEnv listOrder (stubClient [("x", "sx"); ("y", "sy")] [])
       ["A=ssm://x"; "B=2"; "C=ssm://y"; "D=ssm://x"]).1
  = [request_for (referenced_keys ["A=ssm://x"; "B=2"; "C=ssm://y"; "D=ssm://x"])]
  /\ referenced_keys ["A=ssm://x"; "B=2"; "C=ssm://y"; "D=ssm://x"]
     = ["x"; "y"; "x"].
Proof.
  split; [|reflexivity].
  apply (C1_one_fetch_with_every_reference
           listOrder (stubClient [("x", "sx"); ("y", "sy")] [])
           ["A=ssm://x"; "B=2"; "C=ssm://y"; "D=ssm://x"]).
  - repeat constructor.
  - exists "A", "x". split; [reflexivity|]. by left.
Defined.

(** C1 as stated fails when two entries reference the same parameter key:
    the one request names ["x"] twice, so its name list is not the
    duplicate-free list of the keys referenced. *)
Lemma C1_counterexample :
  (exists k key, has_sep k = false /\
     entry_of k (ssmPrefix +:+ key) ∈ ["A=ssm://x"; "B=ssm://x"]) /\
  fetch_calls
    (ReplacedEnv listOrder (stubClient [("x", "secret")] [])
       ["A=ssm://x"; "B=ssm://x"]).1
    = [request_for ["x"; "x"]] /\
  ~ (exists input,
       fetch_calls
         (ReplacedEnv listOrder (stubClient [("x", "secret")] [])
            ["A=ssm://x"; "B=ssm://x"]).1 = [input] /\
       NoDup (Names input) /\
       forall key, key ∈ Names input <->
         exists k, has_sep k = false /\
           entry_of k (ssmPrefix +:+ key) ∈ ["A=ssm://x"; "B=ssm://x"]).
Proof.
  assert (fetch_calls
            (ReplacedEnv listOrder (stubClient [("x", "secret")] [])
               ["A=ssm://x"; "B=ssm://x"]).1
          = [request_for ["x"; "x"]]) as -> by (vm_compute; reflexivity).
  split; [|split; [done|]].
  - exists "A", "x". split; [reflexivity|]. by left.
  - intros (input & [= <-] & Hnd & _). simpl in Hnd.
    apply NoDup_cons in Hnd as [Hnd _]. apply Hnd. by left.
Qed.

(** C2, as amended: for every list of well-formed entries and every
    successful fetch, [ReplacedEnv] returns a mapping exactly when the
    fetch result holds the parameter key of every entry that is the last
    one for its key; the mapping returned then has the keys of the entries
    and nothing else, keeps unchanged the value of each last entry that has
    no marker, and maps the key of each last entry whose value begins with
    ["ssm://"] to the fetched value of the parameter key after the marker.
    In particular [["A=1"; "B=ssm://path/to/x"]] with the fetch result
    [{"path/to/x": "secret"}] yields [{"A": "1", "B": "secret"}]. *)
Theorem C2_splices_fetched_values
    {Cause : Type} (rng : MapRange) (cli : ssmClient Cause)
    (envs : list string) (ps : gmap string string) :
  Forall well_formed envs ->
  fetch_result cli (referenced_keys envs) = Ok ps ->
  ((exists t m, ReplacedEnv rng cli envs = (t, Ok m)) <->
   (forall k key, last_entry envs k (ssmPrefix +:+ key) ->
                  is_Some (ps !! key))) /\
  (forall t m, ReplacedEnv rng cli envs = (t, Ok m) ->
     (forall k v, last_entry envs k v ->
        (forall key, v <> ssmPrefix +:+ key) -> m !! k = Some v) /\
     (forall k key, last_entry envs k (ssmPrefix +:+ key) ->
        m !! k = ps !! key /\ is_Some (m !! k)) /\
     (forall k, is_Some (m !! k) -> exists v, last_entry envs k v)) /\
  (forall rng' : MapRange,
     ReplacedEnv rng' (stubClient [("path/to/x", "secret")] [])
       ["A=1"; "B=ssm://path/to/x"]
     = (fetch_trace ["path/to/x"], Ok {[ "A" := "1"; "B" := "secret" ]})).
Proof.
  intros Hwf Hps. split; [|split].
  - split.
    + intros (t & m & H) k key Hlast.
      pose proof (ReplacedEnv_Ok_lookup _ _ _ _ _ k H) as Hm.
      pose proof (proj2 (ReplacedEnv_Ok_keys _ _ _ _ _ k H)
                    (ex_intro _ _ Hlast)) as Hsome.
      apply parsed_mapping_lookup in Hlast.
      rewrite Hlast, HasPrefix_app, TrimPrefix_app, Hps in Hm. by rewrite <- Hm.
    + intros Hall. destruct (ReplacedEnv rng cli envs) as [t [m|e]] eqn:H;
        [by eauto|exfalso].
      destruct (decide (referenced_keys envs = [])) as [Hnil|Hne].
      * by rewrite ReplacedEnv_no_reference in H.
      * pose proof (ReplacedEnv_reference_result rng cli _ _ Hwf Hne Hps) as Hr.
        rewrite H in Hr. symmetry in Hr.
        apply replaceLoop_Err in Hr as (k & key & Hin & Hnone & _).
        apply elem_of_range, parsed_mapping_lookup, Hall in Hin.
        rewrite Hnone in Hin. by destruct Hin.
  - intros t m H. split; [|split].
    + intros k v Hlast Hplain.
      pose proof (ReplacedEnv_Ok_lookup _ _ _ _ _ k H) as Hm.
      apply parsed_mapping_lookup in Hlast. apply not_marker_spec in Hplain.
      by rewrite Hlast, Hplain in Hm.
    + intros k key Hlast.
      pose proof (ReplacedEnv_Ok_lookup _ _ _ _ _ k H) as Hm.
      pose proof (proj2 (ReplacedEnv_Ok_keys _ _ _ _ _ k H)
                    (ex_intro _ _ Hlast)) as Hsome.
      apply parsed_mapping_lookup in Hlast.
      by rewrite Hlast, HasPrefix_app, TrimPrefix_app, Hps in Hm.
    + intros k Hk. by apply (ReplacedEnv_Ok_keys _ _ _ _ _ k H).
  - intros rng'. apply (ReplacedEnv_Ok_any_order listOrder).
    vm_compute. reflexivity.
Qed.

Lemma C2_witness :
  (exists t m,
     ReplacedEnv reverseOrder (stubClient [("x", "sx"); ("y", "sy")] [])
       ["A=ssm://x"; "B=ssm://y"; "A=2"; "C=ssm://x"] = (t, Ok m)) <->
  (forall k key,
     last_entry ["A=ssm://x"; "B=ssm://y"; "A=2"; "C=ssm://x"] k
       (ssmPrefix +:+ key) ->
     is_Some (({[ "x" := "sx"; "y" := "sy" ]} : gmap string string) !! key)).
Proof.
  apply (C2_splices_fetched_values
           reverseOrder (stubClient [("x", "sx"); ("y", "sy")] [])
           ["A=ssm://x"; "B=ssm://y"; "A=2"; "C=ssm://x"]
           {[ "x" := "sx"; "y" := "sy" ]}).
  - repeat constructor.
  - vm_compute. reflexivity.
Defined.

(** C2 as stated fails on a repeated key: in [["A=1"; "A=2"]] the entry
    ["A=1"] has no marker, yet the mapping returned holds ["2"] for
    ["A"]. *)
Lemma C2_counterexample :
  Forall well_formed ["A=1"; "A=2"] /\
  exists t m,
    ReplacedEnv listOrder (stubClient [] []) ["A=1"; "A=2"] = (t, Ok m) /\
    ~ (forall k v, has_sep k = false -> entry_of k v ∈ ["A=1"; "A=2"] ->
         (forall key, v <> ssmPrefix +:+ key) -> m !! k = Some v).
Proof.
  split; [repeat constructor|].
  exists [], {[ "A" := "2" ]}. split; [vm_compute; reflexivity|].
  intros H. specialize (H "A" "1" eq_refl).
  assert (({[ "A" := "2" ]} : gmap string string) !! "A" = Some "1") as Hbad.
  { apply H; [by left|]. intros key. discriminate. }
  vm_compute in Hbad. discriminate.
Qed.

(** C3, as amended: whenever [ReplacedEnv] returns a mapping none of whose
    values begins with ["ssm://"] (no fetched value carries the marker
    itself), re-serializing that mapping as [KEY=VALUE] entries, in any
    order, and running [ReplacedEnv] on them again, with any client,
    returns the same mapping and fetches nothing. *)
Theorem C3_idempotent_on_marker_free_mapping
    {Cause : Type} (rng rng' : MapRange) (cli cli' : ssmClient Cause)
    (envs : list string) (t : list event) (m : gmap string string)
    (kvs : list (string * string)) :
  ReplacedEnv rng cli envs = (t, Ok m) ->
  (forall k v key, m !! k = Some v -> v <> ssmPrefix +:+ key) ->
  kvs ≡ₚ map_to_list m ->
  ReplacedEnv rng' cli' (serialize kvs) = ([], Ok m).
Proof.
  intros H Hplain Hperm.
  assert (Forall (fun kv => has_sep kv.1 = false) kvs) as Hkeys.
  { apply Forall_forall. intros [k v] Hin. rewrite Hperm in Hin.
    apply elem_of_map_to_list in Hin.
    by apply (ReplacedEnv_Ok_key_nosep _ _ _ _ _ _ _ H Hin). }
  rewrite ReplacedEnv_no_reference.
  - do 2 f_equal. unfold parsed_mapping.
    rewrite (parse_entries_serialize _ Hkeys), <- (list_to_map_to_list m).
    apply list_to_map_proper.
    + rewrite reverse_Permutation, Hperm. apply NoDup_fst_map_to_list.
    + by rewrite reverse_Permutation.
  - apply serialize_well_formed.
  - apply referenced_keys_nil.
    intros k key Hk ([k0 v0] & E & Hin)%list_elem_of_fmap.
    rewrite Forall_forall in Hkeys. pose proof (Hkeys _ Hin) as Hk0.
    cbn [fst snd] in E, Hk0. apply entry_of_inj in E as [<- <-]; [|done..].
    rewrite Hperm in Hin. apply elem_of_map_to_list in Hin.
    by apply (Hplain _ _ key Hin).
Qed.

Lemma C3_witness :
  ReplacedEnv reverseOrder (stubClient [] [])
    (serialize (map_to_list ({[ "A" := "1"; "B" := "secret" ]}
                               : gmap string string)))
  = ([], Ok {[ "A" := "1"; "B" := "secret" ]}).
Proof.
  apply (C3_idempotent_on_marker_free_mapping
           listOrder reverseOrder (stubClient [("path/to/x", "secret")] [])
           (stubClient [] []) ["A=1"; "B=ssm://path/to/x"]
           (fetch_trace ["path/to/x"])).
  - vm_compute. reflexivity.
  - intros k v key Hk. enumerate_lookup Hk.
    destruct Hk as [[= -> ->]|[[= -> ->]|Hk]];
      [discriminate|discriminate|by apply elem_of_nil in Hk].
  - reflexivity.
Defined.

(** C3 as stated fails when a fetched value itself begins with the marker:
    the first call returns [{"A": "ssm://y"}], and the second call, on
    ["A=ssm://y"], substitutes again and returns [{"A": "z"}]. *)
Lemma C3_counterexample :
  ReplacedEnv listOrder (stubClient [("x", "ssm://y"); ("y", "z")] [])
    ["A=ssm://x"]
    = (fetch_trace ["x"], Ok {[ "A" := "ssm://y" ]}) /\
  serialize (listOrder ({[ "A" := "ssm://y" ]} : gmap string string))
    = ["A=ssm://y"] /\
  ReplacedEnv listOrder (stubClient [("x", "ssm://y"); ("y", "z")] [])
    (serialize (listOrder ({[ "A" := "ssm://y" ]} : gmap string string)))
    = (fetch_trace ["y"], Ok {[ "A" := "z" ]}) /\
  (ReplacedEnv listOrder (stubClient [("x", "ssm://y"); ("y", "z")] [])
     (serialize (listOrder ({[ "A" := "ssm://y" ]} : gmap string string)))).2
    <> Ok ({[ "A" := "ssm://y" ]} : gmap string string).
Proof.
  assert (ReplacedEnv listOrder (stubClient [("x", "ssm://y"); ("y", "z")] [])
            (serialize (listOrder ({[ "A" := "ssm://y" ]} : gmap string string)))
          = (fetch_trace ["y"], Ok {[ "A" := "z" ]})) as ->
    by (vm_compute; reflexivity).
  repeat split; try (vm_compute; reflexivity).
  intros [=].
Qed.

(** C4: for every list of well-formed entries in which no value begins
    with ["ssm://"], [ReplacedEnv] returns the input parsed as a mapping
    (each key mapped to the value of its last entry) and its trace is
    empty: the fetch capability is never invoked. *)
Theorem C4_no_marker_returns_input_without_fetch
    {Cause : Type} (rng : MapRange) (cli : ssmClient Cause)
    (envs : list string) :
  Forall well_formed envs ->
  (forall k v key, has_sep k = false -> entry_of k v ∈ envs ->
     v <> ssmPrefix +:+ key) ->
  ReplacedEnv rng cli envs = ([], Ok (parsed_mapping envs)) /\
  fetch_calls (ReplacedEnv rng cli envs).1 = [] /\
  (forall k v, parsed_mapping envs !! k = Some v <-> last_entry envs k v).
Proof.
  intros Hwf Hplain.
  assert (ReplacedEnv rng cli envs = ([], Ok (parsed_mapping envs))) as ->.
  { apply ReplacedEnv_no_reference; [done|]. apply referenced_keys_nil.
    intros k key Hk Hin. by apply (Hplain k _ key Hk Hin). }
  split; [done|]. split; [done|]. intros k v. apply parsed_mapping_lookup.
Qed.

Lemma C4_witness :
  ReplacedEnv listOrder (stubClient [("x", "secret")] []) ["A=1"; "B=a=b"; "A=2"]
    = ([], Ok (parsed_mapping ["A=1"; "B=a=b"; "A=2"])) /\
  fetch_calls
    (ReplacedEnv listOrder (stubClient [("x", "secret")] [])
       ["A=1"; "B=a=b"; "A=2"]).1 = [] /\
  (forall k v, parsed_mapping ["A=1"; "B=a=b"; "A=2"] !! k = Some v <->
               last_entry ["A=1"; "B=a=b"; "A=2"] k v).
Proof.
  apply (C4_no_marker_returns_input_without_fetch
           listOrder (stubClient [("x", "secret")] [])
           ["A=1"; "B=a=b"; "A=2"]).
  - repeat constructor.
  - intros k v key Hk Hin ->.
    assert (has_byte ":" (entry_of k (ssmPrefix +:+ key)) = true) as Hcolon.
    { unfold entry_of. rewrite !has_byte_app. simpl. by rewrite orb_true_r. }
    repeat (apply elem_of_cons in Hin as [Hin|Hin];
            [rewrite Hin in Hcolon; vm_compute in Hcolon; discriminate|]).
    by apply elem_of_nil in Hin.
Defined.

(** C5: for every list that contains an entry without a ["="] separator,
    whatever its position, [ReplacedEnv] fails with the format error
    carrying the offending entry (the first entry without a separator),
    returns no mapping, and its trace is empty: zero fetch calls. *)
Theorem C5_entry_without_separator_fails
    {Cause : Type} (rng : MapRange) (cli : ssmClient Cause)
    (envs : list string) :
  (exists e, e ∈ envs /\ has_sep e = false) ->
  exists pre e post,
    envs = pre ++ e :: post /\ Forall well_formed pre /\ has_sep e = false /\
    ReplacedEnv rng cli envs = ([], Err (InvalidEnvVarFormatError e)) /\
    fetch_calls (ReplacedEnv rng cli envs).1 = [].
Proof.
  intros (e & Hin & He).
  assert (¬ Forall well_formed envs) as Hn.
  { intros Hwf. rewrite Forall_forall in Hwf. specialize (Hwf e Hin).
    unfold well_formed in Hwf. congruence. }
  destruct (first_nosep envs Hn) as (pre & e' & post & -> & Hpre & He').
  exists pre, e', post. rewrite (ReplacedEnv_nosep _ _ _ _ _ Hpre He').
  done.
Qed.

Lemma C5_witness :
  exists pre e post,
    ["A=1"; "B=ssm://x"; "NOVALUE"; "C=3"] = pre ++ e :: post /\
    Forall well_formed pre /\ has_sep e = false /\
    ReplacedEnv listOrder (stubClient [("x", "secret")] [])
      ["A=1"; "B=ssm://x"; "NOVALUE"; "C=3"]
      = ([], Err (InvalidEnvVarFormatError e)) /\
    fetch_calls
      (ReplacedEnv listOrder (stubClient [("x", "secret")] [])
         ["A=1"; "B=ssm://x"; "NOVALUE"; "C=3"]).1 = [].
Proof.
  apply (C5_entry_without_separator_fails
           listOrder (stubClient [("x", "secret")] [])
           ["A=1"; "B=ssm://x"; "NOVALUE"; "C=3"]).
  exists "NOVALUE". split; [|reflexivity].
  rewrite !elem_of_cons. right; right; by left.
Defined.

(** C6, as amended: for every list of well-formed entries where the fetch
    succeeds but its result omits the parameter key of an entry that is the
    last one for its key, [ReplacedEnv] fails, after the one request, with
    a not-found error naming a key that such an entry references and the
    fetch result omits (the omitted key itself when it is the only one),
    and returns no mapping. *)
Theorem C6_omitted_key_not_found
    {Cause : Type} (rng : MapRange) (cli : ssmClient Cause)
    (envs : list string) (ps : gmap string string) (k key : string) :
  Forall well_formed envs ->
  fetch_result cli (referenced_keys envs) = Ok ps ->
  last_entry envs k (ssmPrefix +:+ key) ->
  ps !! key = None ->
  (exists k' key',
     last_entry envs k' (ssmPrefix +:+ key') /\ ps !! key' = None /\
     ReplacedEnv rng cli envs =
       (fetch_trace (referenced_keys envs),
        Err (ParameterNotFoundError key'))) /\
  ((forall k' key', last_entry envs k' (ssmPrefix +:+ key') ->
      ps !! key' = None -> key' = key) ->
   ReplacedEnv rng cli envs =
     (fetch_trace (referenced_keys envs), Err (ParameterNotFoundError key))).
Proof.
  intros Hwf Hps Hlast Hnone.
  destruct (ReplacedEnv_not_found rng cli _ _ _ _ Hwf Hps Hlast Hnone)
    as (k' & key' & Hlast' & Hnone' & H).
  split; [by exists k', key'|].
  intros Honly. by rewrite H, (Honly k' key' Hlast' Hnone').
Qed.

Lemma C6_witness :
  exists k' key',
    last_entry ["A=1"; "B=ssm://x"; "C=ssm://y"] k' (ssmPrefix +:+ key') /\
    ({[ "x" := "sx" ]} : gmap string string) !! key' = None /\
    ReplacedEnv listOrder (stubClient [("x", "sx")] [])
      ["A=1"; "B=ssm://x"; "C=ssm://y"] =
      (fetch_trace (referenced_keys ["A=1"; "B=ssm://x"; "C=ssm://y"]),
       Err (ParameterNotFoundError key')).
Proof.
  apply (C6_omitted_key_not_found listOrder (stubClient [("x", "sx")] [])
           ["A=1"; "B=ssm://x"; "C=ssm://y"] {[ "x" := "sx" ]} "C" "y").
  - repeat constructor.
  - vm_compute. reflexivity.
  - split; [reflexivity|]. exists ["A=1"; "B=ssm://x"], [].
    split; [reflexivity|]. intros e v' He. by apply elem_of_nil in He.
  - vm_compute. reflexivity.
Defined.

(** C6 as stated fails when the entry that referenced the omitted key is
    overridden by a later entry with the same key: ["x"] is requested, the
    fetch succeeds without it, and [ReplacedEnv] returns [{"A": "1"}]
    instead of failing. *)
Lemma C6_counterexample :
  fetch_calls
    (ReplacedEnv listOrder (stubClient [] []) ["A=ssm://x"; "A=1"]).1
    = [request_for ["x"]] /\
  fetch_result (stubClient [] []) ["x"] = Ok ∅ /\
  (ReplacedEnv listOrder (stubClient [] []) ["A=ssm://x"; "A=1"]).2
    = Ok {[ "A" := "1" ]} /\
  ~ (exists key,
       (ReplacedEnv listOrder (stubClient [] []) ["A=ssm://x"; "A=1"]).2
       = Err (ParameterNotFoundError key)).
Proof.
  assert ((ReplacedEnv listOrder (stubClient [] []) ["A=ssm://x"; "A=1"])
          = (fetch_trace ["x"], Ok {[ "A" := "1" ]})) as ->
    by (vm_compute; reflexivity).
  repeat split. intros [key H]. discriminate.
Qed.

(** C7: whenever the request [ReplacedEnv] sends is answered with a
    non-empty invalid-parameters list, [ReplacedEnv] fails with the
    invalid-parameters error carrying exactly that list; being an error,
    the result holds no mapping, resolved or not. *)
Theorem C7_invalid_parameters_fail
    {Cause : Type} (rng : MapRange) (cli : ssmClient Cause)
    (envs : list string) (input : GetParametersInput)
    (res : GetParametersOutput) :
  CallGetParameters input ∈ (ReplacedEnv rng cli envs).1 ->
  GetParameters input = Ok res ->
  InvalidParameters res <> [] ->
  (ReplacedEnv rng cli envs).2 =
    Err (InvalidParametersError (InvalidParameters res)).
Proof.
  intros Hcall Hres Hinv.
  destruct (decide (Forall well_formed envs)) as [Hwf|Hn].
  - rewrite (ReplacedEnv_well_formed _ _ _ Hwf) in *.
    destruct (referenced_keys envs) as [|key keys].
    { by apply elem_of_nil in Hcall. }
    cbn [fst snd] in *. unfold fetch_trace in Hcall.
    apply elem_of_cons in Hcall as [Hcall|Hcall]; [done|].
    apply elem_of_cons in Hcall as [[= ->]|Hcall];
      [|by apply elem_of_nil in Hcall].
    unfold fetch_result, batchFetch. fold (request_for (key :: keys)).
    rewrite Hres. destruct (InvalidParameters res); done.
  - destruct (first_nosep envs Hn) as (pre & e & post & -> & Hpre & He).
    rewrite (ReplacedEnv_nosep _ _ _ _ _ Hpre He) in Hcall.
    by apply elem_of_nil in Hcall.
Qed.

Lemma C7_witness :
  (ReplacedEnv listOrder (stubClient [("y", "sy")] ["x"])
     ["A=ssm://x"; "B=ssm://y"; "C=3"]).2 =
    Err (InvalidParametersError
           (InvalidParameters
              {| Parameters := [{| Name := Some "y"; Value := Some "sy" |}];
                 InvalidParameters := ["x"] |})).
Proof.
  apply (C7_invalid_parameters_fail listOrder (stubClient [("y", "sy")] ["x"])
           ["A=ssm://x"; "B=ssm://y"; "C=3"] (request_for ["x"; "y"])).
  - replace (ReplacedEnv listOrder (stubClient [("y", "sy")] ["x"])
               ["A=ssm://x"; "B=ssm://y"; "C=3"]).1
      with (fetch_trace ["x"; "y"]) by (vm_compute; reflexivity).
    unfold fetch_trace. rewrite !elem_of_cons. right; by left.
  - reflexivity.
  - discriminate.
Defined.

(** C8: every entry that contains a ["="] is split on its first ["="]
    only: it is [k=v] for a key [k] without ["="], [SplitN] returns [k] and
    [v], the loop records [k ↦ v] (and [v]'s parameter key when [v] begins
    with the marker), and a call on that entry alone, when [v] has no
    marker, returns [{k ↦ v}]; ["K=a=b"] parses to ["K"] and ["a=b"]. *)
Theorem C8_split_on_first_separator
    {Cause : Type} (rng : MapRange) (cli : ssmClient Cause) (e : string) :
  has_sep e = true ->
  exists k v,
    e = entry_of k v /\ has_sep k = false /\
    strings.SplitN e "=" 2 = [k; v] /\
    (forall rest orig keys,
       scanEnvs (Cause:=Cause) (e :: rest) orig keys =
         scanEnvs rest (<[k := v]> orig)
           (if strings.HasPrefix v ssmPrefix
            then keys ++ [strings.TrimPrefix v ssmPrefix] else keys)) /\
    ((forall key, v <> ssmPrefix +:+ key) ->
       ReplacedEnv rng cli [e] = ([], Ok {[k := v]})) /\
    strings.SplitN "K=a=b" "=" 2 = ["K"; "a=b"].
Proof.
  intros He. destruct (cut_is_Some e He) as (k & v & Hcut).
  exists k, v. destruct (cut_Some _ _ _ Hcut) as [-> Hk].
  repeat split; [done|by rewrite SplitN_sep, Hcut| |].
  - intros rest orig keys. by apply scanEnvs_cons_split.
  - intros Hplain. rewrite ReplacedEnv_no_reference.
    + rewrite parsed_mapping_cons, Hcut. unfold parsed_mapping. simpl.
      by rewrite (left_id_L ∅ (∪)).
    + by repeat constructor.
    + rewrite referenced_keys_cons, Hcut.
      apply not_marker_spec in Hplain. by rewrite Hplain.
Qed.

Lemma C8_witness :
  exists k v,
    "K=a=b" = entry_of k v /\ has_sep k = false /\
    strings.SplitN "K=a=b" "=" 2 = [k; v] /\
    (forall rest orig keys,
       scanEnvs (Cause:=unit) ("K=a=b" :: rest) orig keys =
         scanEnvs rest (<[k := v]> orig)
           (if strings.HasPrefix v ssmPrefix
            then keys ++ [strings.TrimPrefix v ssmPrefix] else keys)) /\
    ((forall key, v <> ssmPrefix +:+ key) ->
       ReplacedEnv listOrder (stubClient [] []) ["K=a=b"]
         = ([], Ok {[k := v]})) /\
    strings.SplitN "K=a=b" "=" 2 = ["K"; "a=b"].
Proof.
  apply (C8_split_on_first_separator listOrder (stubClient [] []) "K=a=b").
  reflexivity.
Defined.

(** C9: when a key appears in several entries, the mapping [ReplacedEnv]
    returns gives that key the value derived from its last entry: the
    value itself when it has no marker, and the fetched value of its
    parameter key when it begins with ["ssm://"]. *)
Theorem C9_last_write_wins
    {Cause : Type} (rng : MapRange) (cli : ssmClient Cause)
    (envs : list string) (t : list event) (m : gmap string string)
    (k v : string) :
  ReplacedEnv rng cli envs = (t, Ok m) ->
  last_entry envs k v ->
  ((forall key, v <> ssmPrefix +:+ key) -> m !! k = Some v) /\
  (forall key, v = ssmPrefix +:+ key ->
     exists ps val,
       fetch_result cli (referenced_keys envs) = Ok ps /\
       ps !! key = Some val /\ m !! k = Some val).
Proof.
  intros H Hlast.
  pose proof (ReplacedEnv_Ok_lookup _ _ _ _ _ k H) as Hm.
  pose proof (proj2 (ReplacedEnv_Ok_keys _ _ _ _ _ k H)
                (ex_intro _ v Hlast)) as [val Hval].
  apply parsed_mapping_lookup in Hlast. rewrite Hlast in Hm. split.
  - intros Hplain%not_marker_spec. by rewrite Hplain in Hm.
  - intros key ->. rewrite HasPrefix_app, TrimPrefix_app in Hm.
    destruct (fetch_result cli (referenced_keys envs)) as [ps|]; [|congruence].
    exists ps, val. repeat split; congruence.
Qed.

Lemma C9_witness :
  ((forall key, "ssm://y" <> ssmPrefix +:+ key) ->
     ({[ "A" := "2"; "B" := "sy" ]} : gmap string string) !! "B"
       = Some "ssm://y") /\
  (forall key, "ssm://y" = ssmPrefix +:+ key ->
     exists ps val,
       fetch_result (stubClient [("x", "sx"); ("y", "sy")] [])
         (referenced_keys ["A=1"; "B=ssm://x"; "A=2"; "B=ssm://y"]) = Ok ps /\
       ps !! key = Some val /\
       ({[ "A" := "2"; "B" := "sy" ]} : gmap string string) !! "B" = Some val).
Proof.
  apply (C9_last_write_wins listOrder (stubClient [("x", "sx"); ("y", "sy")] [])
           ["A=1"; "B=ssm://x"; "A=2"; "B=ssm://y"]
           (fetch_trace ["x"; "y"])).
  - vm_compute. reflexivity.
  - split; [reflexivity|].
    exists ["A=1"; "B=ssm://x"; "A=2"], []. split; [reflexivity|].
    intros e v' He. by apply elem_of_nil in He.
Defined.

(** C10, as amended: in a list of well-formed entries, an entry whose
    value is exactly ["ssm://"] is an indirection whose parameter key is
    the empty string: one request is sent and its names include the empty
    string.  If the fetch succeeds without mapping the empty string and
    that entry is the last one for its key, the call fails with a not-found
    error, whose key is the empty string when the fetch result holds every
    other key that a last entry references. *)
Theorem C10_empty_parameter_key
    {Cause : Type} (rng : MapRange) (cli : ssmClient Cause)
    (envs : list string) (k : string) :
  Forall well_formed envs ->
  has_sep k = false ->
  entry_of k "ssm://" ∈ envs ->
  strings.HasPrefix "ssm://" ssmPrefix = true /\
  strings.TrimPrefix "ssm://" ssmPrefix = "" /\
  "" ∈ referenced_keys envs /\
  fetch_calls (ReplacedEnv rng cli envs).1
    = [request_for (referenced_keys envs)] /\
  (forall ps,
     fetch_result cli (referenced_keys envs) = Ok ps ->
     ps !! "" = None ->
     last_entry envs k "ssm://" ->
     (exists key', ps !! key' = None /\
        (ReplacedEnv rng cli envs).2 = Err (ParameterNotFoundError key')) /\
     ((forall k' key', last_entry envs k' (ssmPrefix +:+ key') ->
         ps !! key' = None -> key' = "") ->
      (ReplacedEnv rng cli envs).2 = Err (ParameterNotFoundError ""))).
Proof.
  intros Hwf Hk Hin.
  assert ("" ∈ referenced_keys envs) as Href.
  { apply elem_of_referenced_keys. by exists k. }
  assert (referenced_keys envs <> []) as Hne.
  { intros E. rewrite E in Href. by apply elem_of_nil in Href. }
  split; [done|]. split; [done|]. split; [done|]. split.
  - by rewrite (ReplacedEnv_reference_trace _ _ _ Hwf Hne).
  - intros ps Hps Hnone Hlast.
    destruct (ReplacedEnv_not_found rng cli _ _ _ "" Hwf Hps Hlast Hnone)
      as (k' & key' & Hlast' & Hnone' & ->).
    split; [by exists key'|].
    intros Honly. by rewrite (Honly k' key' Hlast' Hnone').
Qed.

Lemma C10_witness :
  (ReplacedEnv listOrder (stubClient [("x", "sx")] [])
     ["A=ssm://x"; "K=ssm://"]).2
  = Err (ParameterNotFoundError "").
Proof.
  destruct (C10_empty_parameter_key listOrder (stubClient [("x", "sx")] [])
              ["A=ssm://x"; "K=ssm://"] "K") as (_ & _ & _ & _ & H).
  - repeat constructor.
  - reflexivity.
  - rewrite !elem_of_cons. right; by left.
  - apply (H {[ "x" := "sx" ]}).
    + vm_compute. reflexivity.
    + vm_compute. reflexivity.
    + split; [reflexivity|]. exists ["A=ssm://x"], [].
      split; [reflexivity|]. intros e v' He. by apply elem_of_nil in He.
    + intros k' key' Hlast Hnone. apply parsed_mapping_lookup in Hlast.
      enumerate_lookup Hlast.
      destruct Hlast as [[= -> E]|[[= -> E]|Hlast]].
      * exact E.
      * change (key' = "x") in E. subst key'.
        vm_compute in Hnone. discriminate.
      * by apply elem_of_nil in Hlast.
Defined.

(** C10 as stated fails when a later entry overrides the key: the empty
    name is requested, the fetch succeeds without it, and [ReplacedEnv]
    returns [{"A": "1"}] instead of a not-found error. *)
Lemma C10_counterexample :
  fetch_calls
    (ReplacedEnv listOrder (stubClient [] []) ["A=ssm://"; "A=1"]).1
    = [request_for [""]] /\
  fetch_result (stubClient [] []) [""] = Ok ∅ /\
  (ReplacedEnv listOrder (stubClient [] []) ["A=ssm://"; "A=1"]).2
    = Ok {[ "A" := "1" ]} /\
  (ReplacedEnv listOrder (stubClient [] []) ["A=ssm://"; "A=1"]).2
    <> Err (ParameterNotFoundError "").
Proof.
  assert ((ReplacedEnv listOrder (stubClient [] []) ["A=ssm://"; "A=1"])
          = (fetch_trace [""], Ok {[ "A" := "1" ]})) as ->
    by (vm_compute; reflexivity).
  repeat split. discriminate.
Qed.

(** * Further properties of the package *)

(** ** The fetch *)

Section FetchFacts.

Context {Cause : Type}.
Implicit Types (cli : ssmClient Cause) (params : list SsmParameter).
Implicit Types (ret : gmap string string).

Lemma fetch_result_eq cli keys :
  fetch_result cli keys =
    match GetParameters (request_for keys) with
    | Err err => Err (GetParametersError err)
    | Ok res =>
        match InvalidParameters res with
        | [] => collectParameters (Parameters res) ∅
        | _ :: _ => Err (InvalidParametersError (InvalidParameters res))
        end
    end.
Proof.
  unfold fetch_result, batchFetch, bind, emit, fail, lift.
  fold (request_for keys).
  destruct (GetParameters (request_for keys)) as [res|err]; [|done].
  by destruct (InvalidParameters res).
Qed.

Lemma collectParameters_incomplete params ret :
  ¬ Forall complete params ->
  collectParameters (Cause:=Cause) params ret = Err NullParameterError.
Proof.
  revert ret. induction params as [|[name value] params IH]; intros ret H.
  - by destruct H.
  - cbn [collectParameters Name Value].
    destruct name as [name|]; [|done]. destruct value as [value|]; [|done].
    apply IH. intros Hrest. apply H. constructor; [|done].
    split; by eexists.
Qed.

Lemma collectParameters_complete params ret :
  Forall complete params ->
  exists m, collectParameters (Cause:=Cause) params ret = Ok m.
Proof.
  intros H. revert ret.
  induction H as [|[name value] params [[n Hn] [v Hv]] _ IH]; intros ret.
  - by eexists.
  - simpl in Hn, Hv. subst. cbn [collectParameters Name Value]. apply IH.
Qed.

(** The map the loop builds: for each name the value of its last
    parameter, and what [ret] held for the names that do not occur. *)
Lemma collectParameters_lookup params ret m name value :
  collectParameters (Cause:=Cause) params ret = Ok m ->
  m !! name = Some value <->
  last_parameter params name value \/
  (ret !! name = Some value /\ forall p, p ∈ params -> Name p <> Some name).
Proof.
  revert ret. induction params as [|[n v] params IH]; intros ret H.
  - injection H as <-. split.
    + intros Hm. right. split; [done|]. intros p Hp.
      by apply elem_of_nil in Hp.
    + intros [(pre & post & E & _)|[Hm _]]; [by destruct pre|done].
  - cbn [collectParameters Name Value] in H.
    destruct n as [n|]; [|done]. destruct v as [v|]; [|done].
    rewrite (IH _ H). split.
    + intros [(pre & post & -> & Hpost)|[Hm Hrest]].
      * left. by exists ({| Name := Some n; Value := Some v |} :: pre), post.
      * destruct (decide (n = name)) as [->|Hne].
        -- rewrite lookup_insert_eq in Hm. injection Hm as ->.
           left. by exists [], params.
        -- rewrite lookup_insert_ne in Hm by done. right. split; [done|].
           intros p [->|Hp]%elem_of_cons; [simpl; congruence|by apply Hrest].
    + intros [(pre & post & E & Hpost)|[Hm Hall]].
      * destruct pre as [|p pre]; simplify_eq/=.
        -- right. split; [apply lookup_insert_eq|done].
        -- left. by exists pre, post.
      * right. assert (n <> name) as Hne.
        { intros ->. by apply (Hall {| Name := Some name; Value := Some v |});
            [left|]. }
        rewrite lookup_insert_ne by done. split; [done|].
        intros p Hp. apply Hall. by right.
Qed.

Lemma replaceLoop_ext (ps ps' : gmap string string) kvs orig :
  (forall k key, (k, ssmPrefix +:+ key) ∈ kvs -> ps !! key = ps' !! key) ->
  replaceLoop (Cause:=Cause) ps kvs orig = replaceLoop ps' kvs orig.
Proof.
  revert orig. induction kvs as [|[k v] kvs IH]; intros orig H; [done|].
  cbn [replaceLoop].
  assert (forall orig', replaceLoop (Cause:=Cause) ps kvs orig'
                        = replaceLoop ps' kvs orig') as Hrest.
  { intros orig'. apply IH. intros k' key Hin. apply (H k'). by right. }
  destruct (strings.HasPrefix v ssmPrefix) eqn:Hv; [|done].
  apply HasPrefix_inv in Hv as [key ->]. rewrite TrimPrefix_app.
  rewrite <- (H k key) by (by left). by destruct (ps !! key).
Qed.

Lemma scanEnvs_app envs1 envs2 orig keys :
  scanEnvs (Cause:=Cause) (envs1 ++ envs2) orig keys =
    match scanEnvs envs1 orig keys with
    | Ok (orig', keys') => scanEnvs envs2 orig' keys'
    | Err e => Err e
    end.
Proof.
  revert orig keys. induction envs1 as [|e envs1 IH]; intros orig keys.
  - done.
  - cbn [app scanEnvs].
    destruct (strings.SplitN e "=" 2) as [|key [|value [|? ?]]];
      by rewrite ?IH.
Qed.

End FetchFacts.

(** X1: when the entries are well formed, reference at least one
    parameter, and the client answers the request with an error, the call
    fails with a [GetParametersError] wrapping exactly that error, after the
    log line and the one request, and unwrapping the failure gives the
    client's error back. *)
Theorem X1_fetch_error_is_wrapped
    {Cause : Type} (rng : MapRange) (cli : ssmClient Cause)
    (envs : list string) (cause : Cause) :
  Forall well_formed envs ->
  referenced_keys envs <> [] ->
  GetParameters (request_for (referenced_keys envs)) = Err cause ->
  ReplacedEnv rng cli envs =
    (fetch_trace (referenced_keys envs), Err (GetParametersError cause)) /\
  (forall e, (ReplacedEnv rng cli envs).2 = Err e -> Unwrap e = Some cause).
Proof.
  intros Hwf Hne Hget.
  assert (ReplacedEnv rng cli envs =
            (fetch_trace (referenced_keys envs),
             Err (GetParametersError cause))) as ->.
  { rewrite (ReplacedEnv_well_formed _ _ _ Hwf), fetch_result_eq, Hget.
    by destruct (referenced_keys envs). }
  split; [done|]. by intros e [= <-].
Qed.

Lemma X1_witness :
  ReplacedEnv reverseOrder (constClient (Err "timeout"))
    ["A=1"; "B=ssm://x"] =
    (fetch_trace (referenced_keys ["A=1"; "B=ssm://x"]),
     Err (GetParametersError "timeout")) /\
  (forall e,
     (ReplacedEnv reverseOrder (constClient (Err "timeout"))
        ["A=1"; "B=ssm://x"]).2 = Err e ->
     Unwrap e = Some "timeout").
Proof.
  apply (X1_fetch_error_is_wrapped reverseOrder (constClient (Err "timeout"))
           ["A=1"; "B=ssm://x"] "timeout").
  - repeat constructor.
  - discriminate.
  - reflexivity.
Defined.

(** X2: when the response to the request lists no invalid name but holds a
    parameter whose name or value is missing, the call fails with
    [NullParameterError], whatever the other parameters are and whether or
    not the references could have been resolved from them. *)
Theorem X2_null_field_fails
    {Cause : Type} (rng : MapRange) (cli : ssmClient Cause)
    (envs : list string) (res : GetParametersOutput) (p : SsmParameter) :
  Forall well_formed envs ->
  referenced_keys envs <> [] ->
  GetParameters (request_for (referenced_keys envs)) = Ok res ->
  InvalidParameters res = [] ->
  p ∈ Parameters res ->
  Name p = None \/ Value p = None ->
  ReplacedEnv rng cli envs =
    (fetch_trace (referenced_keys envs), Err NullParameterError).
Proof.
  intros Hwf Hne Hget Hinv Hp Hnull.
  rewrite (ReplacedEnv_well_formed _ _ _ Hwf), fetch_result_eq, Hget, Hinv.
  rewrite collectParameters_incomplete.
  - by destruct (referenced_keys envs).
  - intros Hall. rewrite Forall_forall in Hall.
    destruct (Hall p Hp) as [[n Hn] [v Hv]].
    destruct Hnull; congruence.
Qed.

Lemma X2_witness :
  ReplacedEnv listOrder
    (constClient (Cause:=unit)
       (Ok {| Parameters := [{| Name := Some "x"; Value := Some "sx" |};
                             {| Name := Some "y"; Value := None |}];
              InvalidParameters := [] |}))
    ["A=ssm://x"] =
    (fetch_trace (referenced_keys ["A=ssm://x"]), Err NullParameterError).
Proof.
  apply (X2_null_field_fails listOrder _ ["A=ssm://x"]
           {| Parameters := [{| Name := Some "x"; Value := Some "sx" |};
                             {| Name := Some "y"; Value := None |}];
              InvalidParameters := [] |}
           {| Name := Some "y"; Value := None |}).
  - repeat constructor.
  - discriminate.
  - reflexivity.
  - reflexivity.
  - cbn [Parameters]. rewrite !elem_of_cons. right; by left.
  - by right.
Defined.

(** X3: [batchFetch] always makes exactly one request, for the given names
    with decryption, and it returns a fetch result exactly when the client
    answers without error, the answer lists no invalid name, and every
    parameter of the answer has both a name and a value. *)
Theorem X3_fetch_succeeds_iff
    {Cause : Type} (cli : ssmClient Cause) (keys : list string) :
  (batchFetch cli keys).1 =
    [CallGetParameters {| Names := keys; WithDecryption := Some true |}] /\
  ((exists ps, (batchFetch cli keys).2 = Ok ps) <->
   exists res,
     GetParameters {| Names := keys; WithDecryption := Some true |} = Ok res /\
     InvalidParameters res = [] /\ Forall complete (Parameters res)).
Proof.
  rewrite batchFetch_eq. cbn [fst snd]. split; [done|].
  rewrite fetch_result_eq. fold (request_for keys).
  destruct (GetParameters (request_for keys)) as [res|err].
  - destruct (InvalidParameters res) as [|name names] eqn:Hinv.
    + split.
      * intros [ps Hps]. exists res. repeat split; try done.
        destruct (decide (Forall complete (Parameters res))) as [|Hn];
          [done|].
        by rewrite collectParameters_incomplete in Hps.
      * intros (res' & [= <-] & _ & Hall).
        by apply collectParameters_complete.
    + split; [by intros [ps ?]|]. intros (res' & [= <-] & ? & _). congruence.
  - split; [by intros [ps ?]|]. by intros (res' & ? & _).
Qed.

(** X4: in a fetch result every parameter of the response is recorded
    under its name, requested or not, and when the response holds several
    parameters with one name the last of them wins. *)
Theorem X4_fetch_result_last_parameter_wins
    {Cause : Type} (cli : ssmClient Cause) (keys : list string)
    (res : GetParametersOutput) (ps : gmap string string) :
  GetParameters (request_for keys) = Ok res ->
  fetch_result cli keys = Ok ps ->
  forall name value,
    ps !! name = Some value <-> last_parameter (Parameters res) name value.
Proof.
  intros Hget Hps name value. rewrite fetch_result_eq, Hget in Hps.
  destruct (InvalidParameters res); [|done].
  rewrite (collectParameters_lookup _ _ _ name value Hps), lookup_empty.
  split; [by intros [?|[? _]]|by left].
Qed.

Lemma X4_witness :
  ({[ "x" := "new"; "y" := "sy" ]} : gmap string string) !! "x"
    = Some "new" <->
  last_parameter
    [{| Name := Some "x"; Value := Some "old" |};
     {| Name := Some "y"; Value := Some "sy" |};
     {| Name := Some "x"; Value := Some "new" |}] "x" "new".
Proof.
  apply (X4_fetch_result_last_parameter_wins
           (stubClient [("x", "old"); ("y", "sy"); ("x", "new")] []) ["x"]
           {| Parameters := [{| Name := Some "x"; Value := Some "old" |};
                             {| Name := Some "y"; Value := Some "sy" |};
                             {| Name := Some "x"; Value := Some "new" |}];
              InvalidParameters := [] |}).
  - reflexivity.
  - vm_compute. reflexivity.
Defined.

(** ** Failures, traces and visiting orders *)

Lemma collectParameters_Err {Cause : Type} (params : list SsmParameter)
    (ret : gmap string string) (e : error Cause) :
  collectParameters params ret = Err e ->
  e = NullParameterError /\
  exists p, p ∈ params /\ (Name p = None \/ Value p = None).
Proof.
  revert ret. induction params as [|p params IH]; intros ret H; [done|].
  cbn [collectParameters] in H.
  destruct (Name p) as [name|] eqn:Hn.
  - destruct (Value p) as [value|] eqn:Hv.
    + destruct (IH _ H) as [-> (p' & Hin & Hnull)]. split; [done|].
      exists p'. split; [by right|done].
    + injection H as <-. split; [done|]. exists p. split; [by left|by right].
  - injection H as <-. split; [done|]. exists p. split; [by left|by left].
Qed.

(** X5: every failure of [ReplacedEnv] has the cause its error names.  A
    format error carries the first entry without ["="] and comes with an
    empty trace; every other error comes after the log line and the one
    request: a [GetParametersError] carries the error the client returned,
    an [InvalidParametersError] the non-empty invalid list of the response,
    a [NullParameterError] means the response held a parameter without name
    or value, and a [ParameterNotFoundError] names a key that was
    requested, that the last entry of some key references, and that the
    fetch result lacks. *)
Theorem X5_failures_have_their_cause
    {Cause : Type} (rng : MapRange) (cli : ssmClient Cause)
    (envs : list string) (t : list event) (e : error Cause) :
  ReplacedEnv rng cli envs = (t, Err e) ->
  match e with
  | InvalidEnvVarFormatError env =>
      t = [] /\
      exists pre post, envs = pre ++ env :: post /\
        Forall well_formed pre /\ has_sep env = false
  | GetParametersError cause =>
      t = fetch_trace (referenced_keys envs) /\
      GetParameters (request_for (referenced_keys envs)) = Err cause
  | InvalidParametersError names =>
      t = fetch_trace (referenced_keys envs) /\ names <> [] /\
      exists res,
        GetParameters (request_for (referenced_keys envs)) = Ok res /\
        InvalidParameters res = names
  | NullParameterError =>
      t = fetch_trace (referenced_keys envs) /\
      exists res p,
        GetParameters (request_for (referenced_keys envs)) = Ok res /\
        InvalidParameters res = [] /\
        p ∈ Parameters res /\ (Name p = None \/ Value p = None)
  | ParameterNotFoundError key =>
      t = fetch_trace (referenced_keys envs) /\
      key ∈ referenced_keys envs /\
      exists ps k,
        fetch_result cli (referenced_keys envs) = Ok ps /\
        last_entry envs k (ssmPrefix +:+ key) /\ ps !! key = None
  end.
Proof.
  intros H. destruct (decide (Forall well_formed envs)) as [Hwf|Hn].
  - rewrite (ReplacedEnv_well_formed _ _ _ Hwf) in H.
    destruct (referenced_keys envs) as [|key0 keys] eqn:Hkeys; [done|].
    rewrite <- Hkeys in *. injection H as <- H.
    destruct (fetch_result cli (referenced_keys envs)) as [ps|e'] eqn:Hps.
    + apply replaceLoop_Err in H as (k & key & Hin & Hnone & ->).
      apply elem_of_range, parsed_mapping_lookup in Hin.
      split; [done|]. split; [by eapply last_entry_referenced|].
      by exists ps, k.
    + injection H as ->. rewrite fetch_result_eq in Hps.
      destruct (GetParameters (request_for (referenced_keys envs)))
        as [res|cause] eqn:Hget.
      * destruct (InvalidParameters res) as [|name names] eqn:Hinv.
        -- apply collectParameters_Err in Hps as [-> (p & Hp & Hnull)].
           split; [done|]. by exists res, p.
        -- injection Hps as <-. split; [done|]. split; [done|].
           by exists res.
      * by injection Hps as <-.
  - destruct (first_nosep envs Hn) as (pre & env & post & -> & Hpre & He).
    rewrite (ReplacedEnv_nosep _ _ _ _ _ Hpre He) in H.
    injection H as <- <-. split; [done|]. by exists pre, post.
Qed.

Lemma X5_witness :
  fetch_trace ["x"; "y"] =
    fetch_trace (referenced_keys ["A=ssm://x"; "B=ssm://y"]) /\
  "y" ∈ referenced_keys ["A=ssm://x"; "B=ssm://y"] /\
  exists ps k,
    fetch_result (stubClient [("x", "sx")] [])
      (referenced_keys ["A=ssm://x"; "B=ssm://y"]) = Ok ps /\
    last_entry ["A=ssm://x"; "B=ssm://y"] k (ssmPrefix +:+ "y") /\
    ps !! "y" = None.
Proof.
  apply (X5_failures_have_their_cause listOrder (stubClient [("x", "sx")] [])
           ["A=ssm://x"; "B=ssm://y"] (fetch_trace ["x"; "y"])
           (ParameterNotFoundError "y")).
  vm_compute. reflexivity.
Defined.

(** X6: whatever the input, [ReplacedEnv] makes at most one request.  Its
    trace is either empty, exactly when some entry has no ["="] or no value
    begins with the marker, or it is the log line listing the requested
    keys joined by commas followed by one request for those keys with
    decryption. *)
Theorem X6_at_most_one_request
    {Cause : Type} (rng : MapRange) (cli : ssmClient Cause)
    (envs : list string) :
  ((ReplacedEnv rng cli envs).1 = [] \/
   (ReplacedEnv rng cli envs).1 =
     [LogInfo "fetching SSM parameters"
        (strings.Join (referenced_keys envs) ",");
      CallGetParameters
        {| Names := referenced_keys envs; WithDecryption := Some true |}]) /\
  ((ReplacedEnv rng cli envs).1 = [] <->
   ¬ Forall well_formed envs \/ referenced_keys envs = []) /\
  length (fetch_calls (ReplacedEnv rng cli envs).1) <= 1.
Proof.
  destruct (decide (Forall well_formed envs)) as [Hwf|Hn].
  - rewrite (ReplacedEnv_well_formed _ _ _ Hwf).
    destruct (referenced_keys envs) as [|key keys] eqn:Hkeys.
    + cbn [fst fetch_calls omap list_omap length].
      split; [by left|]. split; [|lia]. split; [by right|done].
    + cbn [fst]. split; [by right|]. split; [|simpl; lia].
      split; [done|]. by intros [?|?].
  - destruct (first_nosep envs Hn) as (pre & env & post & E & Hpre & He).
    assert ((ReplacedEnv rng cli envs).1 = []) as ->
      by (by rewrite E, (ReplacedEnv_nosep _ _ _ _ _ Hpre He)).
    cbn [fetch_calls omap list_omap length].
    split; [by left|]. split; [|lia]. split; [by left|done].
Qed.

(** X7: the order in which the map is visited does not change the trace,
    a returned mapping, or any failure other than not-found; a not-found
    failure stays a not-found failure, possibly naming another missing
    key. *)
Theorem X7_visiting_order_is_immaterial
    {Cause : Type} (rng rng' : MapRange) (cli : ssmClient Cause)
    (envs : list string) :
  (ReplacedEnv rng cli envs).1 = (ReplacedEnv rng' cli envs).1 /\
  (forall m, (ReplacedEnv rng cli envs).2 = Ok m ->
             (ReplacedEnv rng' cli envs).2 = Ok m) /\
  (forall e, (ReplacedEnv rng cli envs).2 = Err e ->
     (forall key, e <> ParameterNotFoundError key) ->
     (ReplacedEnv rng' cli envs).2 = Err e) /\
  (forall key, (ReplacedEnv rng cli envs).2 = Err (ParameterNotFoundError key) ->
     exists key', (ReplacedEnv rng' cli envs).2
                  = Err (ParameterNotFoundError key')).
Proof.
  destruct (ReplacedEnv rng cli envs) as [t [m|e]] eqn:H.
  - rewrite (ReplacedEnv_Ok_any_order rng rng' _ _ _ _ H). cbn [fst snd].
    split; [done|]. split; [done|]. split; [done|]. done.
  - cbn [fst snd].
    destruct (ReplacedEnv rng' cli envs) as [t' [m'|e']] eqn:H'.
    { rewrite (ReplacedEnv_Ok_any_order rng' rng _ _ _ _ H') in H. done. }
    cbn [fst snd].
    destruct (decide (Forall well_formed envs)) as [Hwf|Hn].
    + rewrite (ReplacedEnv_well_formed _ _ _ Hwf) in H.
      rewrite (ReplacedEnv_well_formed _ _ _ Hwf) in H'.
      destruct (referenced_keys envs) as [|key0 keys]; [done|].
      injection H as <- H. injection H' as <- H'.
      destruct (fetch_result cli (key0 :: keys)) as [ps|e0].
      * apply replaceLoop_Err in H as (k & key & _ & _ & ->).
        apply replaceLoop_Err in H' as (k' & key' & _ & _ & ->).
        split; [done|]. split; [done|]. split.
        -- intros e [= <-] Hne. by destruct (Hne key).
        -- intros key1 _. by exists key'.
      * injection H as <-. injection H' as <-.
        split; [done|]. split; [done|]. split; [done|].
        intros key1 [= ->]. by eexists.
    + destruct (first_nosep envs Hn) as (pre & env & post & -> & Hpre & He).
      rewrite (ReplacedEnv_nosep _ _ _ _ _ Hpre He) in H.
      rewrite (ReplacedEnv_nosep _ _ _ _ _ Hpre He) in H'.
      injection H as <- <-. injection H' as <- <-.
      split; [done|]. split; [done|]. split; [done|]. done.
Qed.

(** X8: the outcome depends on the fetch result only through the values
    of the requested keys: two clients whose fetch results agree on every
    requested key lead to the same trace and the same result, whatever else
    their responses hold. *)
Theorem X8_only_requested_values_matter
    {Cause : Type} (rng : MapRange) (cli cli' : ssmClient Cause)
    (envs : list string) (ps ps' : gmap string string) :
  fetch_result cli (referenced_keys envs) = Ok ps ->
  fetch_result cli' (referenced_keys envs) = Ok ps' ->
  (forall key, key ∈ referenced_keys envs -> ps !! key = ps' !! key) ->
  ReplacedEnv rng cli envs = ReplacedEnv rng cli' envs.
Proof.
  intros Hps Hps' Hagree.
  destruct (decide (Forall well_formed envs)) as [Hwf|Hn].
  - rewrite !(ReplacedEnv_well_formed _ _ _ Hwf), Hps, Hps'.
    destruct (referenced_keys envs) as [|key0 keys] eqn:Hkeys; [done|].
    f_equal. apply replaceLoop_ext. intros k key Hin. apply Hagree.
    rewrite <- Hkeys. apply (last_entry_referenced _ k).
    by apply parsed_mapping_lookup, (elem_of_range rng).
  - destruct (first_nosep envs Hn) as (pre & env & post & -> & Hpre & He).
    by rewrite !(ReplacedEnv_nosep _ _ _ _ _ Hpre He).
Qed.

Lemma X8_witness :
  ReplacedEnv listOrder (stubClient [("x", "sx")] []) ["A=ssm://x"; "B=2"]
  = ReplacedEnv listOrder (stubClient [("x", "sx"); ("unused", "u")] [])
      ["A=ssm://x"; "B=2"].
Proof.
  apply (X8_only_requested_values_matter listOrder
           (stubClient [("x", "sx")] [])
           (stubClient [("x", "sx"); ("unused", "u")] [])
           ["A=ssm://x"; "B=2"]
           {[ "x" := "sx" ]} {[ "x" := "sx"; "unused" := "u" ]}).
  - vm_compute. reflexivity.
  - vm_compute. reflexivity.
  - intros key Hin.
    replace (referenced_keys ["A=ssm://x"; "B=2"]) with ["x"] in Hin
      by (vm_compute; reflexivity).
    apply elem_of_cons in Hin as [->|Hin]; [|by apply elem_of_nil in Hin].
    vm_compute. reflexivity.
Defined.

(** ** Appending entries *)

Lemma parsed_mapping_app (envs1 envs2 : list string) :
  parsed_mapping (envs1 ++ envs2)
    = parsed_mapping envs2 ∪ parsed_mapping envs1.
Proof.
  unfold parsed_mapping, parse_entries.
  by rewrite omap_app, reverse_app, list_to_map_app.
Qed.

Lemma parsed_mapping_plain (envs : list string) (k v : string) :
  referenced_keys envs = [] -> parsed_mapping envs !! k = Some v ->
  strings.HasPrefix v ssmPrefix = false.
Proof.
  intros Hnil Hk. destruct (strings.HasPrefix v ssmPrefix) eqn:Hv; [|done].
  apply HasPrefix_inv in Hv as [key ->].
  apply parsed_mapping_lookup, last_entry_referenced in Hk.
  rewrite Hnil in Hk. by apply elem_of_nil in Hk.
Qed.

(** X9: entries without marker appended to a list that resolves override
    the resolved mapping and change nothing else: if the call on [a]
    returns [ma] and the call on [b] returns [mb] without fetching, the call
    on [a ++ b] makes the requests of the call on [a] and returns [mb] laid
    over [ma], even when [b] overrides an entry of [a] that referenced a
    parameter. *)
Theorem X9_appended_plain_entries_override
    {Cause : Type} (rng : MapRange) (cli : ssmClient Cause)
    (a b : list string) (ta : list event) (ma mb : gmap string string) :
  ReplacedEnv rng cli a = (ta, Ok ma) ->
  ReplacedEnv rng cli b = ([], Ok mb) ->
  ReplacedEnv rng cli (a ++ b) = (ta, Ok (mb ∪ ma)).
Proof.
  intros Ha Hb.
  pose proof (ReplacedEnv_Ok_well_formed _ _ _ _ _ Ha) as Hwfa.
  pose proof (ReplacedEnv_Ok_well_formed _ _ _ _ _ Hb) as Hwfb.
  rewrite (ReplacedEnv_well_formed _ _ _ Hwfb) in Hb.
  destruct (referenced_keys b) as [|? ?] eqn:Hrb; [|done].
  injection Hb as <-.
  rewrite (ReplacedEnv_well_formed _ _ _ Hwfa) in Ha.
  rewrite ReplacedEnv_well_formed by (by apply Forall_app).
  rewrite referenced_keys_app, Hrb, app_nil_r, parsed_mapping_app.
  destruct (referenced_keys a) as [|key0 keys]; [by injection Ha as <- <-|].
  destruct (fetch_result cli (key0 :: keys)) as [ps|]; [|done].
  injection Ha as <- Ha. f_equal.
  destruct (replaceLoop ps (rng (parsed_mapping b ∪ parsed_mapping a)) _)
    as [m'|e] eqn:H'.
  - f_equal. apply map_eq. intros k.
    rewrite (replaceLoop_range_lookup rng _ _ _ k H'), !lookup_union.
    rewrite (replaceLoop_range_lookup rng _ _ _ k Ha).
    destruct (parsed_mapping b !! k) as [v|] eqn:Hbk;
      destruct (parsed_mapping a !! k) as [w|]; simpl;
      rewrite ?(parsed_mapping_plain _ _ _ Hrb Hbk); try done.
    + destruct (strings.HasPrefix w ssmPrefix); [|done].
      by destruct (ps !! strings.TrimPrefix w ssmPrefix).
    + destruct (strings.HasPrefix w ssmPrefix); [|done].
      by destruct (ps !! strings.TrimPrefix w ssmPrefix).
  - apply replaceLoop_Err in H' as (k & key & Hin & Hnone & _).
    apply elem_of_range, lookup_union_Some_raw in Hin as [Hin|[_ Hin]].
    + apply (parsed_mapping_plain _ _ _ Hrb) in Hin.
      by rewrite HasPrefix_app in Hin.
    + apply (elem_of_range rng) in Hin.
      apply (replaceLoop_Ok_present _ _ _ _ _ _ Ha) in Hin.
      rewrite Hnone in Hin. by destruct Hin.
Qed.

Lemma X9_witness :
  ReplacedEnv listOrder (stubClient [("x", "sx"); ("y", "sy")] [])
    (["A=ssm://x"; "B=ssm://y"; "C=3"] ++ ["B=2"; "D=4"])
  = (fetch_trace ["x"; "y"],
     Ok (({[ "B" := "2"; "D" := "4" ]} : gmap string string)
         ∪ {[ "A" := "sx"; "B" := "sy"; "C" := "3" ]})).
Proof.
  apply (X9_appended_plain_entries_override listOrder
           (stubClient [("x", "sx"); ("y", "sy")] [])
           ["A=ssm://x"; "B=ssm://y"; "C=3"] ["B=2"; "D=4"]).
  - vm_compute. reflexivity.
  - vm_compute. reflexivity.
Defined.

(** ** Error messages *)

(** X10: the message of an error tells its kind, and for a format error
    and a not-found error also its payload: two errors of the package with
    the same message are of the same kind, carry the same entry or the same
    key, wrap causes with the same message, or list invalid names that
    print alike. *)
Theorem X10_messages_identify_errors
    {Cause : Type} (cause_msg : Cause -> string) (e1 e2 : error Cause) :
  Error cause_msg e1 = Error cause_msg e2 ->
  match e1, e2 with
  | InvalidEnvVarFormatError env1, InvalidEnvVarFormatError env2 => env1 = env2
  | ParameterNotFoundError key1, ParameterNotFoundError key2 => key1 = key2
  | GetParametersError c1, GetParametersError c2 => cause_msg c1 = cause_msg c2
  | InvalidParametersError l1, InvalidParametersError l2 =>
      fmt_strings l1 = fmt_strings l2
  | NullParameterError, NullParameterError => True
  | _, _ => False
  end.
Proof.
  destruct e1, e2; cbn [Error]; intros H; cbv [String.append] in H;
    first [discriminate H | by injection H | exact I | idtac].
  injection H as E. exact (f_equal (String "[") E).
Qed.

Lemma X10_witness : "NOVALUE" = "NOVALUE".
Proof.
  apply (X10_messages_identify_errors (Cause:=unit) (fun _ => "")
           (InvalidEnvVarFormatError "NOVALUE")
           (InvalidEnvVarFormatError "NOVALUE")).
  reflexivity.
Defined.

(** ** Splitting and joining *)

Lemma cut_eq (s sep : string) :
  strings.cut s sep =
    if strings.HasPrefix s sep
    then Some (EmptyString, strings.drop_bytes (String.length sep) s)
    else
      match s with
      | EmptyString => None
      | String c s' =>
          match strings.cut s' sep with
          | Some (before, after) => Some (String c before, after)
          | None => None
          end
      end.
Proof. by destruct s. Qed.

Lemma HasPrefix_drop (s prefix : string) :
  strings.HasPrefix s prefix = true ->
  s = prefix +:+ strings.drop_bytes (String.length prefix) s.
Proof. intros [r ->]%HasPrefix_inv. by rewrite drop_bytes_app. Qed.

Lemma cut_Some_app (s sep before after : string) :
  strings.cut s sep = Some (before, after) -> s = before +:+ sep +:+ after.
Proof.
  revert before. induction s as [|c s IH]; intros before H;
    rewrite cut_eq in H.
  - destruct (strings.HasPrefix "" sep) eqn:Hp; [|done].
    injection H as <- <-. by apply HasPrefix_drop.
  - destruct (strings.HasPrefix (String c s) sep) eqn:Hp.
    + injection H as <- <-. by apply HasPrefix_drop.
    + destruct (strings.cut s sep) as [[before' after']|]; [|done].
      injection H as <- <-. by rewrite (IH before' eq_refl) at 1.
Qed.

Lemma SplitN_succ (s sep : string) (n : nat) :
  strings.SplitN s sep (S (S n)) =
    match strings.cut s sep with
    | None => [s]
    | Some (before, after) => before :: strings.SplitN after sep (S n)
    end.
Proof. done. Qed.

Lemma SplitN_nonempty (s sep : string) (n : nat) :
  strings.SplitN s sep (S n) <> [].
Proof.
  destruct n as [|n].
  - change (strings.SplitN s sep 1) with [s]. done.
  - rewrite SplitN_succ. by destruct (strings.cut s sep) as [[? ?]|].
Qed.

Lemma Join_cons (e e' : string) (rest : list string) (sep : string) :
  strings.Join (e :: e' :: rest) sep = e +:+ sep +:+ strings.Join (e' :: rest) sep.
Proof. done. Qed.

(** X11: splitting an entry at ["="] into at most [n >= 1] parts and
    joining the parts with ["="] gives the entry back; the split has
    between one and [n] parts, and for [n = 2], as [ReplacedEnv] calls it,
    it has two parts exactly when the entry contains a ["="]. *)
Theorem X11_split_then_join
    (e : string) (n : nat) :
  0 < n ->
  strings.Join (strings.SplitN e "=" n) "=" = e /\
  1 <= length (strings.SplitN e "=" n) <= n /\
  (length (strings.SplitN e "=" 2) = 2 <-> has_sep e = true).
Proof.
  intros Hn. destruct n as [|n]; [lia|clear Hn]. split; [|split].
  - revert e. induction n as [|n IH]; intros e; [done|].
    rewrite SplitN_succ.
    destruct (strings.cut e "=") as [[before after]|] eqn:Hcut; [|done].
    specialize (IH after).
    destruct (strings.SplitN after "=" (S n)) as [|e' rest] eqn:Hs.
    + by apply SplitN_nonempty in Hs.
    + rewrite Join_cons, IH. symmetry. by apply cut_Some_app.
  - revert e. induction n as [|n IH]; intros e; [simpl; lia|].
    rewrite SplitN_succ.
    destruct (strings.cut e "=") as [[before after]|]; [|simpl; lia].
    specialize (IH after). simpl. lia.
  - rewrite SplitN_sep.
    destruct (strings.cut e "=") as [[k v]|] eqn:Hcut.
    + apply cut_Some in Hcut as [-> _]. by rewrite has_sep_entry_of.
    + apply cut_None in Hcut. rewrite Hcut. done.
Qed.

Lemma X11_witness :
  strings.Join (strings.SplitN "K=a=b=c" "=" 3) "=" = "K=a=b=c" /\
  1 <= length (strings.SplitN "K=a=b=c" "=" 3) <= 3 /\
  (length (strings.SplitN "K=a=b=c" "=" 2) = 2 <-> has_sep "K=a=b=c" = true).
Proof.
  apply (X11_split_then_join "K=a=b=c" 3). lia.
Defined.

(** ** When a mapping is returned *)

(** X12: [ReplacedEnv] returns a mapping exactly when every entry has a
    ["="] and either no value begins with the marker, or the fetch succeeds
    and its result holds the parameter key of every entry that is the last
    one for its key. *)
Theorem X12_returns_mapping_iff
    {Cause : Type} (rng : MapRange) (cli : ssmClient Cause)
    (envs : list string) :
  (exists t m, ReplacedEnv rng cli envs = (t, Ok m)) <->
  Forall well_formed envs /\
  (referenced_keys envs = [] \/
   exists ps,
     fetch_result cli (referenced_keys envs) = Ok ps /\
     forall k key, last_entry envs k (ssmPrefix +:+ key) ->
                   is_Some (ps !! key)).
Proof.
  split.
  - intros (t & m & H).
    pose proof (ReplacedEnv_Ok_well_formed _ _ _ _ _ H) as Hwf.
    split; [done|]. rewrite (ReplacedEnv_well_formed _ _ _ Hwf) in H.
    destruct (referenced_keys envs) as [|key0 keys]; [by left|right].
    destruct (fetch_result cli (key0 :: keys)) as [ps|]; [|done].
    injection H as _ H. exists ps. split; [done|].
    intros k key Hlast. apply (replaceLoop_Ok_present _ _ _ _ k _ H).
    by apply elem_of_range, parsed_mapping_lookup.
  - intros [Hwf [Hnil|(ps & Hps & Hall)]].
    + rewrite (ReplacedEnv_no_reference _ _ _ Hwf Hnil). by eauto.
    + rewrite (ReplacedEnv_well_formed _ _ _ Hwf), Hps.
      destruct (referenced_keys envs) as [|key0 keys]; [by eauto|].
      destruct (replaceLoop ps (rng (parsed_mapping envs)) _)
        as [m|e] eqn:H; [by eauto|].
      apply replaceLoop_Err in H as (k & key & Hin & Hnone & _).
      apply elem_of_range, parsed_mapping_lookup, Hall in Hin.
      rewrite Hnone in Hin. by destruct Hin.
Qed.
